(** * emi-transport: event/command transport engine

    A shallow embedding of the Go package [emi_transport]:
    - [Segments]: the message [SegmentBuilder] (first error wins);
    - [Http]:     the command client ([HttpClient.Post], [HttpClient.doPost]);
    - [Ws]:       the streaming connection ([WebsocketEventSource]);
    - [Dispatch]: the [Bot] with its registries and its dispatch loop.

    Go values are embedded as follows.  [int], [int64] and
    [time.Duration] are [Z] with the 64-bit two's complement wrap-around
    written out ([wrap64]); [[]byte] and [json.RawMessage] are
    [list byte]; a Go [error] is [option error] with [None] for [nil];
    maps are [gmap]; a channel variable is [option chan] with [None] for
    the nil channel.  Libraries the package calls ([encoding/json],
    [compress/zlib], [net/http], [net/url], [gorilla/websocket],
    [math/rand]) are not part of the package: their functions enter as
    the fields of a class ([Http.Codec], [Ws.Decoders],
    [Dispatch.Events]) and what the network and the clock do as an
    environment the functions are run against.  The log lines of the two
    background activities are among their effects; the debug lines of
    the command client are left out.  Go's [int] is taken to be 64 bits
    wide. *)

From Stdlib Require Import ZArith List Lia.
From stdpp Require Import gmap strings list.

Abbreviation bytes := (list Byte.byte).

(** ** Errors *)

(** The error values the package creates or passes on. *)
Inductive error : Type :=
| io_EOF
| ErrEventRegistryAlreadyExists
| ErrAlreadyConnected
| lib_error (msg : string)
| Errorf (msg : string)
| Errorf_w (msg : string) (cause : error)
| Errorf_status (code : Z) (body : bytes).

(** [err.Error()], up to the formatting of numbers and bodies. *)
Fixpoint Error (e : error) : string :=
  match e with
  | io_EOF => "EOF"
  | ErrEventRegistryAlreadyExists => "event registry already exists"
  | ErrAlreadyConnected => "already connected"
  | lib_error msg => msg
  | Errorf msg => msg
  | Errorf_w msg cause => msg ++ ": " ++ Error cause
  | Errorf_status _ body =>
      "unexpected status code %d, response body: " ++ String.string_of_list_byte body
  end.

(** [err == io.EOF] *)
Definition is_EOF (e : error) : bool :=
  match e with io_EOF => true | _ => false end.

(** ** Message segments *)

Module Segments.

Record Segment := { seg_Type : string; seg_Data : bytes }.

Record SegmentBuilder := {
  segments : list Segment;
  sb_error : option error
}.

Definition NewSegmentBuilder : SegmentBuilder :=
  {| segments := []; sb_error := None |}.

Definition Append (segment : Segment) (err : option error)
    (sb : SegmentBuilder) : SegmentBuilder :=
  match sb_error sb with
  | Some _ => sb
  | None =>
      match err with
      | Some e => {| segments := segments sb; sb_error := Some e |}
      | None => {| segments := segments sb ++ [segment]; sb_error := None |}
      end
  end.

(** [Build] returns a nil slice ([None]) together with the stored error,
    or the segments with a nil error. *)
Definition Build (sb : SegmentBuilder) : option (list Segment) * option error :=
  match sb_error sb with
  | Some e => (None, Some e)
  | None => (Some (segments sb), None)
  end.

(** A chain of builder calls [sb.Append(s1, e1).Append(s2, e2)...].
    The methods [Text], [Mention], [Face], ... are [Append] applied to
    what the constructor of the segment returned. *)
Definition AppendAll (calls : list (Segment * option error))
    (sb : SegmentBuilder) : SegmentBuilder :=
  foldl (fun sb c => Append (fst c) (snd c) sb) sb calls.

(** The calls of a chain that carry no error. *)
Definition no_error (calls : list (Segment * option error)) : Prop :=
  Forall (fun c => snd c = None) calls.

End Segments.

(** ** Command client *)

Module Http.

Local Open Scope Z_scope.

(** [time.Duration] counts nanoseconds in an [int64]. *)
Definition Nanosecond : Z := 1.
Definition Microsecond : Z := 1000 * Nanosecond.
Definition Millisecond : Z := 1000 * Microsecond.
Definition Second : Z := 1000 * Millisecond.

Definition MinInt64 : Z := - 2 ^ 63.
Definition MaxInt64 : Z := 2 ^ 63 - 1.

(** Two's complement reduction of an integer to 64 bits. *)
Definition wrap64 (z : Z) : Z := (z + 2 ^ 63) mod 2 ^ 64 - 2 ^ 63.

Definition add64 (a b : Z) : Z := wrap64 (a + b).
Definition mul64 (a b : Z) : Z := wrap64 (a * b).

(** [x << s] on [int64]; a negative shift count panics ([None]). *)
Definition shl64 (x s : Z) : option Z :=
  if s <? 0 then None else Some (wrap64 (Z.shiftl x s)).

Definition StatusOK : Z := 200.
Definition StatusNoContent : Z := 204.
Definition StatusMultipleChoices : Z := 300.

Record HttpResult := {
  Status : string;
  Code : Z;
  Data : bytes
}.

Record HttpClient := {
  restGateway : string;
  accessToken : string;
  client_Timeout : Z;
  maxRetries : Z;
  baseRetryDelay : Z;
  maxRetryDelay : Z;
  maxRetryJitter : Z
}.

Definition NewHttpClient (restGateway accessToken : string) : HttpClient :=
  {| restGateway := restGateway;
     accessToken := accessToken;
     client_Timeout := Second * 10;
     maxRetries := 5;
     baseRetryDelay := 100 * Millisecond;
     maxRetryDelay := 5 * Second;
     maxRetryJitter := 100 * Millisecond |}.

Definition NewHttpClientWithOptions (restGateway accessToken : string)
    (client_Timeout maxRetries : Z)
    (baseRetryDelay maxRetryDelay maxRetryJitter : Z) : HttpClient :=
  {| restGateway := restGateway;
     accessToken := accessToken;
     client_Timeout := client_Timeout;
     maxRetries := maxRetries;
     baseRetryDelay := baseRetryDelay;
     maxRetryDelay := maxRetryDelay;
     maxRetryJitter := maxRetryJitter |}.

(** The request handed to [client.Do]. *)
Record Request := {
  Method : string;
  URL : string;
  Header : list (string * string);
  Body : bytes
}.

(** What [client.Do] followed by [io.ReadAll(resp.Body)] yields. *)
Inductive DoResult :=
| DoError (err : error)
| DoResponse (StatusCode : Z) (body : bytes) (read_err : option error).

(** The library functions [doPost] and [Post] call on values of the
    caller's request type [Req] and response type [Resp].  An unmarshal
    works in place: it takes the target's content and returns the new
    content with the error. *)
Class Codec (Req Resp : Type) := {
  url_JoinPath : string -> string -> string * option error;
  http_NewRequest : string -> option error;
  json_Marshal : Req -> bytes * option error;
  json_Unmarshal_HttpResult : bytes -> HttpResult -> HttpResult * option error;
  json_Unmarshal : bytes -> Resp -> Resp * option error
}.

Section Client.
Context {Req Resp : Type} `{!Codec Req Resp}.

(** The body of the request: empty when the caller passes nil. *)
Definition request_body (request : option Req) : bytes * option error :=
  match request with
  | None => ([], None)
  | Some r => json_Marshal r
  end.

(** The request with its headers: the content type, and the bearer
    credential when a token is configured. *)
Definition new_request (h : HttpClient) (urlPath : string) (jsonBytes : bytes)
    : Request :=
  {| Method := "POST";
     URL := urlPath;
     Header :=
       ("Content-Type", "application/json")%string ::
       (if String.eqb (accessToken h) "" then []
        else [("Authorization", "Bearer " ++ accessToken h)%string]);
     Body := jsonBytes |}.

(** [doPost]: one attempt.  [request] and [response] are [None] when the
    caller passes nil; [response] otherwise holds the content of the
    caller's slot, and the second component of the result is the content
    of the slot afterwards. *)
Definition doPost (h : HttpClient) (Do : Request -> DoResult)
    (urlPath : string) (request : option Req) (response : option Resp)
    : option error * option Resp :=
  match request_body request with
  | (_, Some err) => (Some (Errorf_w "failed to marshal request" err), response)
  | (jsonBytes, None) =>
    match http_NewRequest urlPath with
    | Some err => (Some (Errorf_w "failed to create request" err), response)
    | None =>
      match Do (new_request h urlPath jsonBytes) with
      | DoError err => (Some (Errorf_w "request failed" err), response)
      | DoResponse StatusCode body (Some err) =>
          (Some (Errorf_w "failed to read response body" err), response)
      | DoResponse StatusCode body None =>
        if (StatusCode <? StatusOK) || (StatusMultipleChoices <=? StatusCode)
        then (Some (Errorf_status StatusCode body), response)
        else
          match response with
          | None => (None, None)
          | Some slot =>
            if StatusCode =? StatusNoContent then (None, Some slot)
            else
              let '(result, err1) :=
                json_Unmarshal_HttpResult body
                  {| Status := ""; Code := 0; Data := [] |} in
              match err1 with
              | Some err =>
                  (Some (Errorf_w "failed to decode response" err), Some slot)
              | None =>
                let '(slot', err2) := json_Unmarshal (Data result) slot in
                match err2 with
                | None => (None, Some slot')
                | Some err =>
                    if is_EOF err then (None, Some slot')
                    else (Some (Errorf_w "failed to decode response" err),
                          Some slot')
                end
              end
          end
      end
    end
  end.

(** The caller's context: the instant at which [ctx.Done()] is closed,
    if ever. *)
Record Context_ := { cancel_at : option Z }.

(** What the world does during one call of [Post], indexed by the number
    of the [doPost] call (from 0): the exchange, the time it takes, the
    raw random draw, and the case a [select] picks when both are ready. *)
Record Env := {
  env_Do : nat -> Request -> DoResult;
  env_elapsed : nat -> Z;
  env_rand : nat -> Z;
  env_pick_done : nat -> bool
}.

(** [rand.Int64N(n)]: a value in [[0, n)]; panics ([None]) when [n <= 0]. *)
Definition rand_Int64N (draw n : Z) : option Z :=
  if n <=? 0 then None else Some (draw mod n).

(** The delay before the next attempt:
    [min(h.baseRetryDelay*(1<<attempt)+jitter, h.maxRetryDelay)]. *)
Definition retry_delay (h : HttpClient) (attempt jitter : Z) : option Z :=
  match shl64 1 attempt with
  | None => None
  | Some p =>
      Some (Z.min (add64 (mul64 (baseRetryDelay h) p) jitter) (maxRetryDelay h))
  end.

Inductive selected := case_Done | case_After.

(** [select { case <-ctx.Done(): ...; case <-time.After(delay): }] entered
    at instant [now]: the case taken and the instant it is taken at.  The
    timer fires at once for a delay that is not positive. *)
Definition select_wait (ctx : Context_) (now delay : Z) (pick_done : bool)
    : selected * Z :=
  let fires := now + Z.max 0 delay in
  match cancel_at ctx with
  | None => (case_After, fires)
  | Some c =>
      let done := Z.max now c in
      if done <? fires then (case_Done, done)
      else if fires <? done then (case_After, fires)
      else (if pick_done then case_Done else case_After, fires)
  end.

(** The variables of the loop of [Post], with the number of [doPost]
    calls made so far and the clock. *)
Record Loop := {
  attempt : Z;
  calls : nat;
  now : Z;
  slot : option Resp
}.

Inductive Step :=
| Continue (st : Loop)
| Return (err : option error) (st : Loop)
| Panic (msg : string) (st : Loop).

(** One turn of the [for] loop of [Post]. *)
Definition Post_iter (h : HttpClient) (env : Env) (ctx : Context_)
    (urlPath : string) (request : option Req) (st : Loop) : Step :=
  let k := calls st in
  let '(err, slot') := doPost h (env_Do env k) urlPath request (slot st) in
  let st1 := {| attempt := attempt st; calls := S k;
                now := now st + Z.max 0 (env_elapsed env k);
                slot := slot' |} in
  match err with
  | None => Return None st1
  | Some err =>
    if maxRetries h <? attempt st
    then Return (Some (Errorf_w "max retries exceeded" err)) st1
    else
      match rand_Int64N (env_rand env k) (maxRetryJitter h) with
      | None => Panic "invalid argument to Int64N" st1
      | Some jitter =>
        match retry_delay h (attempt st) jitter with
        | None => Panic "negative shift amount" st1
        | Some delay =>
          match select_wait ctx (now st1) delay (env_pick_done env k) with
          | (case_Done, t) =>
              Return (Some (Errorf "context canceled"))
                {| attempt := attempt st; calls := S k; now := t;
                   slot := slot' |}
          | (case_After, t) =>
              Continue {| attempt := wrap64 (attempt st + 1); calls := S k;
                          now := t; slot := slot' |}
          end
        end
      end
  end.

(** The loop, cut off after [fuel] turns ([None]). *)
Fixpoint Post_loop (fuel : nat) (h : HttpClient) (env : Env) (ctx : Context_)
    (urlPath : string) (request : option Req) (st : Loop) : option Step :=
  match fuel with
  | O => None
  | S fuel' =>
      match Post_iter h env ctx urlPath request st with
      | Continue st' => Post_loop fuel' h env ctx urlPath request st'
      | stop => Some stop
      end
  end.

(** [Post], entered at instant [start]. *)
Definition Post (fuel : nat) (h : HttpClient) (env : Env) (ctx : Context_)
    (start : Z) (endpoint : string) (request : option Req)
    (response : option Resp) : option Step :=
  let st0 := {| attempt := 0; calls := O; now := start; slot := response |} in
  match url_JoinPath (restGateway h) endpoint with
  | (_, Some err) => Some (Return (Some (Errorf_w "failed to join URL path" err)) st0)
  | (urlPath, None) => Post_loop fuel h env ctx urlPath request st0
  end.

(** The loop variables on entry to turn [n], when the turns before it all
    went round. *)
Fixpoint reach (n : nat) (h : HttpClient) (env : Env) (ctx : Context_)
    (urlPath : string) (request : option Req) (st : Loop) : option Loop :=
  match n with
  | O => Some st
  | S n' =>
      match Post_iter h env ctx urlPath request st with
      | Continue st' => reach n' h env ctx urlPath request st'
      | _ => None
      end
  end.

End Client.

End Http.

(** ** Events and channels *)

(** [milky_types.RawEvent], the envelope of an inbound event. *)
Record RawEvent := {
  raw_Type : string;
  SelfID : Z;
  Time : Z;
  raw_Data : bytes
}.

(** The zero value [milky_types.RawEvent{}]. *)
Definition RawEvent_zero : RawEvent :=
  {| raw_Type := ""; SelfID := 0; Time := 0; raw_Data := [] |}.

(** A channel made by [make(chan T)] is known by its number.  The
    channels of a process: the closed ones, the ones some goroutine is
    blocked sending on, and the next number [make] hands out. *)
Definition chan := nat.

Record Chans := {
  closed : gset chan;
  sending : gset chan;
  next_chan : chan
}.

Definition make_chan (cs : Chans) : chan * Chans :=
  (next_chan cs,
   {| closed := closed cs; sending := sending cs;
      next_chan := S (next_chan cs) |}).

(** [close(c)]: panics ([None]) on the nil channel and on a closed one. *)
Definition close_chan (c : option chan) (cs : Chans) : option Chans :=
  match c with
  | None => None
  | Some c =>
      if decide (c ∈ closed cs) then None
      else Some {| closed := {[c]} ∪ closed cs; sending := sending cs;
                   next_chan := next_chan cs |}
  end.

(** What a goroutine that executes [<-c] does: it goes on when the
    channel is closed or a sender is waiting; it waits for another
    goroutine otherwise; on the nil channel nothing can ever wake it. *)
Inductive blocking := Proceeds | Blocks_until_ready | Blocks_forever.

Definition receive_from (c : option chan) (cs : Chans) : blocking :=
  match c with
  | None => Blocks_forever
  | Some c =>
      if decide (c ∈ closed cs) then Proceeds
      else if decide (c ∈ sending cs) then Proceeds
      else Blocks_until_ready
  end.

(** What a method leaves behind: its results and the new state, or a
    panic. *)
Inductive outcome (A W : Type) :=
| Ok (a : A) (w : W)
| Panicked (msg : string) (w : W).
Arguments Ok {A W} a w.
Arguments Panicked {A W} msg w.

(** ** Streaming connection *)

Module Ws.

Local Open Scope Z_scope.

(** A [*websocket.Conn] is known by its number. *)
Definition Conn := nat.

Definition TextMessage : Z := 1.
Definition BinaryMessage : Z := 2.

Record WebsocketEventSource := {
  wsGateway : string;
  accessToken : string;
  wsConn : option Conn;
  eventChan : option chan;
  closeChan : option chan
}.

Definition NewWebsocketEventSource (wsGateway accessToken : string)
    : WebsocketEventSource :=
  {| wsGateway := wsGateway; accessToken := accessToken;
     wsConn := None; eventChan := None; closeChan := None |}.

(** The goroutine started by [go w.receive(wsConn, eventChan, closeChan)]. *)
Record Receiver := {
  rc_wsConn : Conn;
  rc_eventChan : chan;
  rc_closeChan : chan
}.

(** The event source with the channels of the process and the receive
    goroutines started so far.  The methods run under [w.Lock()], so each
    is one transition. *)
Record World := {
  source : WebsocketEventSource;
  chans : Chans;
  receivers : list Receiver
}.

Definition Wait (wd : World) : blocking :=
  receive_from (closeChan (source wd)) (chans wd).

(** [Open]; [Dial] stands for [websocket.DefaultDialer.Dial]. *)
Definition Open (Dial : string -> list (string * string) -> error + Conn)
    (wd : World) : (option chan * option error) * World :=
  let w := source wd in
  match wsConn w with
  | Some _ => ((None, Some ErrAlreadyConnected), wd)
  | None =>
      let header :=
        if String.eqb (accessToken w) "" then []
        else [("Authorization", "Bearer " ++ accessToken w)%string] in
      match Dial (wsGateway w) header with
      | inl err => ((None, Some err), wd)
      | inr conn =>
          let '(ec, cs1) := make_chan (chans wd) in
          let '(cc, cs2) := make_chan cs1 in
          ((Some ec, None),
           {| source := {| wsGateway := wsGateway w;
                           accessToken := accessToken w;
                           wsConn := Some conn;
                           eventChan := Some ec;
                           closeChan := Some cc |};
              chans := cs2;
              receivers := receivers wd ++
                [{| rc_wsConn := conn; rc_eventChan := ec;
                    rc_closeChan := cc |}] |})
      end
  end.

(** [Close]; [conn_Close] stands for the [Close] method of the connection. *)
Definition Close (conn_Close : Conn -> option error) (wd : World)
    : outcome (option error) World :=
  let w := source wd in
  match wsConn w with
  | None => Ok None wd
  | Some conn =>
      match conn_Close conn with
      | Some err => Ok (Some err) wd
      | None =>
          let w' := {| wsGateway := wsGateway w; accessToken := accessToken w;
                       wsConn := None; eventChan := eventChan w;
                       closeChan := closeChan w |} in
          match close_chan (eventChan w) (chans wd) with
          | None =>
              Panicked "close of nil or closed channel"
                {| source := w'; chans := chans wd; receivers := receivers wd |}
          | Some cs1 =>
              match close_chan (closeChan w) cs1 with
              | None =>
                  Panicked "close of nil or closed channel"
                    {| source := w'; chans := cs1; receivers := receivers wd |}
              | Some cs2 =>
                  Ok None {| source := w'; chans := cs2;
                             receivers := receivers wd |}
              end
          end
      end
  end.

(** The library functions the receive activity calls on a frame. *)
Class Decoders := {
  zlib_NewReader : bytes -> option error;
  io_ReadAll : bytes -> bytes * option error;
  zlib_Close : bytes -> option error;
  json_Unmarshal_RawEvent : bytes -> RawEvent -> RawEvent * option error
}.

(** What the receive activity does that others can see. *)
Inductive effect :=
| Logf (level format : string)
| Send (c : chan) (ev : RawEvent).

(** What the receive activity meets, in order: a frame read by
    [ReadMessage], an error of [ReadMessage], or another goroutine
    completing [w.Close()]. *)
Inductive incoming :=
| Message (messageType : Z) (message : bytes)
| ReadError (err : error)
| Close_elsewhere.

Inductive turn :=
| Next (wd : World)
| Exit (wd : World)
| Crash (msg : string) (wd : World).

Section Receive.
Context `{!Decoders}.

Definition log_if (err : option error) (format : string) : list effect :=
  match err with
  | Some _ => [Logf "ERROR" format]
  | None => []
  end.

(** The zlib branch.  When [zlib.NewReader] fails the reader is nil and
    [io.ReadAll] panics on it ([None]). *)
Definition decompress (message : bytes) : list effect * option bytes :=
  match zlib_NewReader message with
  | Some err => ([Logf "ERROR" "Failed to decompress message: %v"], None)
  | None =>
      let '(messageBytes, err1) := io_ReadAll message in
      (log_if err1 "Failed to read decompressed message: %v" ++
       log_if (zlib_Close message) "Failed to close zlib reader: %v",
       Some messageBytes)
  end.

(** One turn of the loop of [receive]. *)
Definition receive_turn (conn_Close : Conn -> option error) (r : Receiver)
    (x : incoming) (wd : World) : list effect * turn :=
  match x with
  | Close_elsewhere =>
      match Close conn_Close wd with
      | Ok _ wd' => ([], Next wd')
      | Panicked msg wd' => ([], Crash msg wd')
      end
  | ReadError err =>
      if decide (wsConn (source wd) = Some (rc_wsConn r)) then
        match Close conn_Close wd with
        | Ok err' wd' =>
            (Logf "ERROR" "Error when reading message: %v" ::
             log_if err' "Failed to close websocket connection: %v",
             Exit wd')
        | Panicked msg wd' =>
            ([Logf "ERROR" "Error when reading message: %v"], Crash msg wd')
        end
      else ([], Exit wd)
  | Message messageType message =>
      let '(log1, unpacked) :=
        if messageType =? BinaryMessage then decompress message
        else ([], Some message) in
      match unpacked with
      | None => (log1, Crash "nil pointer dereference" wd)
      | Some messageBytes =>
          let '(rawEvent, err) :=
            json_Unmarshal_RawEvent messageBytes RawEvent_zero in
          let log2 :=
            log1 ++ log_if err "Failed to decode message: %v" ++
            [Logf "DEBUG" "Received event: {event_type: %s, self_id: %d, time: %d, data: %s}"] in
          if decide (rc_eventChan r ∈ closed (chans wd))
          then (log2, Crash "send on closed channel" wd)
          else
            (log2 ++ [Send (rc_eventChan r) rawEvent],
             if decide (rc_closeChan r ∈ closed (chans wd))
             then Exit wd else Next wd)
      end
  end.

(** The loop of [receive] over what it meets.  When the list is used up
    the activity is waiting in [ReadMessage] ([Next]). *)
Fixpoint receive (conn_Close : Conn -> option error) (r : Receiver)
    (xs : list incoming) (wd : World) : list effect * turn :=
  match xs with
  | [] => ([], Next wd)
  | x :: xs' =>
      match receive_turn conn_Close r x wd with
      | (effs, Next wd') =>
          let '(effs', t) := receive conn_Close r xs' wd' in
          (effs ++ effs', t)
      | stop => stop
      end
  end.

End Receive.

End Ws.

(** ** Event dispatcher *)

Module Dispatch.

(** What the dispatcher asks of a [milky_types.Event]: its type
    identifier, a fresh value of its shape, and decoding in place
    ([json.NewDecoder(bytes.NewReader(data)).Decode(event)]). *)
Class Events (Event : Type) := {
  Event_Type : Event -> string;
  Event_New : Event -> Event;
  json_Decode : bytes -> Event -> Event * option error
}.

(** A [core.EventHandler]: who it is and the type it declares. *)
Record EventHandler := {
  handler_name : string;
  handler_Type : string
}.

(** The handlers of one type, in the order of their registration. *)
Definition of_type (T : string) (handlers : list EventHandler)
    : list EventHandler :=
  filter (fun handler => handler_Type handler = T) handlers.

Section Bot.
Context {Event : Type} `{!Events Event}.

Record Bot := {
  eventRegistries : gmap string Event;
  eventHandlers : gmap string (list EventHandler);
  closeChan : option chan
}.

Definition NewBot : Bot :=
  {| eventRegistries := ∅; eventHandlers := ∅; closeChan := None |}.

(** The bot, the event objects allocated so far (an event handed to a
    handler is the position of its object here), and the channels. *)
Record World := {
  bot : Bot;
  heap : list Event;
  chans : Chans
}.

Definition SetEventRegistry (eventType : string) (event : Event) (b : Bot)
    : Bot :=
  {| eventRegistries := <[eventType := event]> (eventRegistries b);
     eventHandlers := eventHandlers b;
     closeChan := closeChan b |}.

Definition Handle (handler : EventHandler) (b : Bot) : Bot :=
  {| eventRegistries := eventRegistries b;
     eventHandlers :=
       <[handler_Type handler :=
           default [] (eventHandlers b !! handler_Type handler) ++ [handler]]>
         (eventHandlers b);
     closeChan := closeChan b |}.

(** A run of [Handle] calls, in order. *)
Definition HandleAll (handlers : list EventHandler) (b : Bot) : Bot :=
  foldl (fun b handler => Handle handler b) b handlers.

(** [Open]; [opened] is what [b.eventSource.Open()] returned.  On success
    the dispatch activity is started on the returned channel. *)
Definition Open (opened : option chan * option error) (wd : World)
    : option error * World * option (option chan) :=
  match snd opened with
  | Some err => (Some err, wd, None)
  | None =>
      let '(c, cs) := make_chan (chans wd) in
      (None,
       {| bot := {| eventRegistries := eventRegistries (bot wd);
                    eventHandlers := eventHandlers (bot wd);
                    closeChan := Some c |};
          heap := heap wd; chans := cs |},
       Some (fst opened))
  end.

Definition Wait (wd : World) : blocking :=
  match closeChan (bot wd) with
  | None => Proceeds
  | Some c => receive_from (Some c) (chans wd)
  end.

(** What the dispatch activity does that others can see. *)
Inductive effect :=
| Logf (level format : string)
| Invoke (handler : EventHandler) (event : nat) (rawEvent : RawEvent).

(** What [handler.Handle(b, event, rawEvent)] does to the world; the
    handlers are the application's. *)
Variable run : EventHandler -> nat -> RawEvent -> World -> World.

(** [for _, handler := range handlers { handler.Handle(b, event, rawEvent) }] *)
Fixpoint invoke_all (handlers : list EventHandler) (event : nat)
    (rawEvent : RawEvent) (wd : World) : list effect * World :=
  match handlers with
  | [] => ([], wd)
  | handler :: rest =>
      let '(effs, wd') :=
        invoke_all rest event rawEvent (run handler event rawEvent wd) in
      (Invoke handler event rawEvent :: effs, wd')
  end.

(** [event := eventRegistry.New()] followed by the decoding of the raw
    payload into it: the new object is the last one of the heap. *)
Definition new_decoded (eventRegistry : Event) (rawEvent : RawEvent)
    (wd : World) : option error * World :=
  let '(event, err) :=
    json_Decode (raw_Data rawEvent) (Event_New eventRegistry) in
  (err, {| bot := bot wd; heap := heap wd ++ [event]; chans := chans wd |}).

(** One turn of the loop of [handleEvent]. *)
Definition handleEvent_turn (rawEvent : RawEvent) (wd : World)
    : list effect * World :=
  match eventRegistries (bot wd) !! raw_Type rawEvent with
  | None => ([Logf "WARN" "Unknown event type: %s"], wd)
  | Some eventRegistry =>
      match eventHandlers (bot wd) !! Event_Type eventRegistry with
      | None => ([Logf "TRACE" "No handler registered for event: %s"], wd)
      | Some handlers =>
          match new_decoded eventRegistry rawEvent wd with
          | (Some err, wd1) =>
              ([Logf "ERROR" "Failed to decode event data: %v"], wd1)
          | (None, wd1) =>
              invoke_all handlers (length (heap wd)) rawEvent wd1
          end
      end
  end.

(** [go func() { b.closeChan <- struct{}{} }()]: a goroutine that waits
    to send on the close channel (for ever, on the nil channel). *)
Definition signal_close (wd : World) : World :=
  match closeChan (bot wd) with
  | None => wd
  | Some c =>
      {| bot := bot wd; heap := heap wd;
         chans := {| closed := closed (chans wd);
                     sending := {[c]} ∪ sending (chans wd);
                     next_chan := next_chan (chans wd) |} |}
  end.

(** The events the channel delivers until it is closed, one at a time. *)
Fixpoint handleEvent_loop (events : list RawEvent) (wd : World)
    : list effect * World :=
  match events with
  | [] => ([], wd)
  | rawEvent :: rest =>
      let '(effs, wd1) := handleEvent_turn rawEvent wd in
      let '(effs', wd2) := handleEvent_loop rest wd1 in
      (effs ++ effs', wd2)
  end.

Definition handleEvent (events : list RawEvent) (wd : World)
    : list effect * World :=
  let '(effs, wd') := handleEvent_loop events wd in
  (effs, signal_close wd').

(** The handler calls among the effects. *)
Definition is_Invoke (e : effect) : bool :=
  match e with Invoke _ _ _ => true | Logf _ _ => false end.

Definition invocations (effs : list effect) : list effect :=
  List.filter is_Invoke effs.

(** The claim on the dispatch of one event as the specification words
    it: an event whose type identifier is in the event registry and has
    at least one registered handler is handed to every handler
    registered for that identifier, once each and in their order. *)
Definition handleEvent_claim (rawEvent : RawEvent) (wd : World) : Prop :=
  forall eventRegistry handlers,
    eventRegistries (bot wd) !! raw_Type rawEvent = Some eventRegistry ->
    eventHandlers (bot wd) !! raw_Type rawEvent = Some handlers ->
    handlers <> [] ->
    invocations (fst (handleEvent_turn rawEvent wd)) =
      map (fun handler => Invoke handler (length (heap wd)) rawEvent) handlers.

End Bot.

End Dispatch.

(** ** Builder methods and segment constructors *)

Module Builder.
Import Segments.

(** [NewSegment]: the element is marshalled, and the segment carries the
    bytes under the given type; [marshalled] is what
    [element.MarshalJSON()] returned.  The result is a pointer, [None]
    for nil. *)
Definition NewSegment (segmentType : string)
    (marshalled : bytes * option error) : option Segment * option error :=
  match snd marshalled with
  | Some err => (None, Some err)
  | None =>
      (Some {| seg_Type := segmentType; seg_Data := fst marshalled |}, None)
  end.

(** The body shared by [Text], [Mention], [MentionAll], [Face], [Reply],
    [Image], [Record] and [Video]: [seg, err := NewXSegment(...)] and
    then [Append] is called with the segment [seg] points to and [err].
    The dereference of [seg] is evaluated
    before the call, so a nil [seg] panics ([None]). *)
Definition Append_made (made : option Segment * option error)
    (sb : SegmentBuilder) : option SegmentBuilder :=
  match fst made with
  | None => None
  | Some seg => Some (Append seg (snd made) sb)
  end.

(** One builder method: the type its constructor passes to [NewSegment]
    and what marshalling its element gives. *)
Definition method (segmentType : string) (marshalled : bytes * option error)
    (sb : SegmentBuilder) : option SegmentBuilder :=
  Append_made (NewSegment segmentType marshalled) sb.

(** A chain of builder methods; a panic ends it. *)
Fixpoint methods (calls : list (string * (bytes * option error)))
    (sb : SegmentBuilder) : option SegmentBuilder :=
  match calls with
  | [] => Some sb
  | c :: rest =>
      match method (fst c) (snd c) sb with
      | None => None
      | Some sb' => methods rest sb'
      end
  end.

(** The segment a method appends when marshalling succeeds. *)
Definition segment_of (c : string * (bytes * option error)) : Segment :=
  {| seg_Type := fst c; seg_Data := fst (snd c) |}.

End Builder.

(** ** The API methods of the command client *)

Module Api.
Import Http.

Section Call.
Context {Req Resp : Type} `{!Codec Req Resp}.

(** The body shared by [GetLoginInfo], [SendGroupMessage], ...:
    [var resp T], then [h.Post(ctx, endpoint, request, &resp)], and
    [(nil, err)] on an error, [(&resp, nil)] otherwise.  [zero] is the
    zero value of the response type; the result holds the content of
    [resp] when the pointer is not nil.  [None] when the fuel of [Post]
    runs out. *)
Definition call (fuel : nat) (h : HttpClient) (env : Env) (ctx : Context_)
    (start : Z) (endpoint : string) (request : Req) (zero : Resp)
    : option (outcome (option Resp * option error) Loop) :=
  match Post fuel h env ctx start endpoint (Some request) (Some zero) with
  | None => None
  | Some (Continue _) => None
  | Some (Return None st) => Some (Ok (slot st, None) st)
  | Some (Return (Some err) st) => Some (Ok (None, Some err) st)
  | Some (Panic msg st) => Some (Panicked msg st)
  end.

(** Where a step leaves the loop, and whether it ends the call. *)
Definition final (s : Step (Resp := Resp)) : Loop :=
  match s with
  | Continue st | Return _ st | Panic _ st => st
  end.


End Call.

End Api.

(** ** States of the streaming connection *)

Module Lifecycle.
Import Ws.

(** What holds of the source between calls: the closed channels have
    been made, and an open source owns two different channels that have
    been made and are not closed. *)
Definition well_formed (wd : World) : Prop :=
  (forall c, c ∈ closed (chans wd) -> (c < next_chan (chans wd))%nat) /\
  match wsConn (source wd) with
  | None => True
  | Some _ =>
      exists ec cc,
        eventChan (source wd) = Some ec /\
        closeChan (source wd) = Some cc /\
        ec <> cc /\
        (ec ∉ closed (chans wd)) /\ (cc ∉ closed (chans wd)) /\
        (ec < next_chan (chans wd))%nat /\ (cc < next_chan (chans wd))%nat
  end.

(** The states a source gets into: a new source, then any [Open] and any
    [Close] that returns. *)
Inductive reachable : World -> Prop :=
| reachable_new wsGateway accessToken cs :
    (forall c, c ∈ closed cs -> (c < next_chan cs)%nat) ->
    reachable {| source := NewWebsocketEventSource wsGateway accessToken;
                 chans := cs; receivers := [] |}
| reachable_Open Dial wd :
    reachable wd -> reachable (snd (Open Dial wd))
| reachable_Close conn_Close wd res wd' :
    reachable wd -> Close conn_Close wd = Ok res wd' -> reachable wd'.

(** The events sent, in order. *)
Fixpoint sent (effs : list effect) : list RawEvent :=
  match effs with
  | [] => []
  | Send _ ev :: rest => ev :: sent rest
  | Logf _ _ :: rest => sent rest
  end.

End Lifecycle.

(** ** The logger *)

Module TinyLogger.

Local Open Scope Z_scope.

Definition logLevelTrace : Z := 0.
Definition logLevelDebug : Z := 1.
Definition logLevelInfo : Z := 2.
Definition logLevelWarn : Z := 3.
Definition logLevelError : Z := 4.
Definition logLevelFatal : Z := 5.

(** [logLevel.String] *)
Definition String_ (l : Z) : string :=
  if l =? logLevelTrace then "TRACE"
  else if l =? logLevelDebug then "DEBUG"
  else if l =? logLevelInfo then "INFO"
  else if l =? logLevelWarn then "WARN"
  else if l =? logLevelError then "ERROR"
  else if l =? logLevelFatal then "FATAL"
  else "UNKNOWN".

(** The level each logging method passes to [logF]. *)
Inductive log_method :=
| Tracef | Debugf | Infof | Warnf | Errorf_ | Fatalf
| Trace | Debug | Info | Warn | Error_ | Fatal.

Definition level_of (m : log_method) : Z :=
  match m with
  | Tracef | Trace => logLevelTrace
  | Debugf | Debug => logLevelDebug
  | Infof | Info => logLevelInfo
  | Warnf | Warn => logLevelWarn
  | Errorf_ | Error_ => logLevelError
  | Fatalf | Fatal => logLevelFatal
  end.

(** [levelString] of [logF]. *)
Definition levelString (l : Z) : string := "[" ++ String_ l ++ "]".

End TinyLogger.

(** ** Stand-ins for the libraries

    Small total functions in the place of the libraries, for running the
    model on concrete inputs.  A JSON text is taken to be anything that
    starts with an opening brace. *)

Module Sample.

Definition looks_like_json (b : bytes) : bool :=
  match b with
  | Byte.x7b :: _ => true
  | _ => false
  end.

Definition invalid_character : error :=
  lib_error "invalid character looking for beginning of value".

#[export] Instance codec : Http.Codec bytes bytes := {|
  Http.url_JoinPath base endpoint := ((base ++ "/" ++ endpoint)%string, None);
  Http.http_NewRequest _ := None;
  Http.json_Marshal r := (r, None);
  Http.json_Unmarshal_HttpResult body result :=
    if looks_like_json body
    then ({| Http.Status := "ok"; Http.Code := 0%Z; Http.Data := body |}, None)
    else (result, Some invalid_character);
  Http.json_Unmarshal data slot :=
    if looks_like_json data then (data, None)
    else (slot, Some invalid_character)
|}.

#[export] Instance decoders : Ws.Decoders := {|
  Ws.zlib_NewReader _ := None;
  Ws.io_ReadAll message := (message, None);
  Ws.zlib_Close _ := None;
  Ws.json_Unmarshal_RawEvent messageBytes rawEvent :=
    if looks_like_json messageBytes
    then ({| raw_Type := "message_receive"; SelfID := 1%Z; Time := 1000%Z;
             raw_Data := messageBytes |}, None)
    else (rawEvent, Some invalid_character)
|}.

(** An event is its type identifier with the payload decoded into it. *)
#[export] Instance events : Dispatch.Events (string * bytes) := {|
  Dispatch.Event_Type event := fst event;
  Dispatch.Event_New event := (fst event, []);
  Dispatch.json_Decode data event :=
    if looks_like_json data then ((fst event, data), None)
    else (event, Some invalid_character)
|}.

Definition no_chans : Chans :=
  {| closed := ∅; sending := ∅; next_chan := O |}.

(** An endpoint nobody listens on. *)
Definition refusing : Http.Env := {|
  Http.env_Do _ _ := Http.DoError (lib_error "connection refused");
  Http.env_elapsed _ := 1000000%Z;
  Http.env_rand _ := 0%Z;
  Http.env_pick_done _ := false
|}.

Definition never_cancelled : Http.Context_ := {| Http.cancel_at := None |}.

(** A client with the default delays that retries 40 times. *)
Definition forty_retries : Http.HttpClient :=
  Http.NewHttpClientWithOptions "http://gateway" "" (10 * Http.Second) 40
    (100 * Http.Millisecond) (5 * Http.Second) (100 * Http.Millisecond).

(** A source opened once on connection 7, and its receive goroutine. *)
Definition opened_once : Ws.World :=
  snd (Ws.Open (fun _ _ => inr 7%nat)
         {| Ws.source := Ws.NewWebsocketEventSource "ws://gateway/event" "";
            Ws.chans := no_chans; Ws.receivers := [] |}).

Definition receiver_7 : Ws.Receiver :=
  {| Ws.rc_wsConn := 7%nat; Ws.rc_eventChan := 0%nat; Ws.rc_closeChan := 1%nat |}.

(** Handlers that leave the world as it is. *)
Definition quiet : Dispatch.EventHandler -> nat -> RawEvent ->
    Dispatch.World (Event := string * bytes) ->
    Dispatch.World (Event := string * bytes) :=
  fun _ _ _ wd => wd.

Definition on_message (name : string) : Dispatch.EventHandler :=
  {| Dispatch.handler_name := name;
     Dispatch.handler_Type := "message_receive" |}.

Definition on_offline (name : string) : Dispatch.EventHandler :=
  {| Dispatch.handler_name := name; Dispatch.handler_Type := "bot_offline" |}.

Definition world_of (b : Dispatch.Bot (Event := string * bytes))
    : Dispatch.World :=
  {| Dispatch.bot := b; Dispatch.heap := []; Dispatch.chans := no_chans |}.

(** The identifier of messages registered with a prototype of its own
    type, and with a prototype that reports another type. *)
Definition matched : Dispatch.World :=
  world_of
    (Dispatch.HandleAll [on_message "first"; on_offline "other";
                         on_message "second"]
       (Dispatch.SetEventRegistry "message_receive" ("message_receive", [])
          Dispatch.NewBot)).

Definition mismatched : Dispatch.World :=
  world_of
    (Dispatch.Handle (on_message "first")
       (Dispatch.SetEventRegistry "message_receive" ("bot_offline", [])
          Dispatch.NewBot)).

Definition a_message (data : string) : RawEvent :=
  {| raw_Type := "message_receive"; SelfID := 1; Time := 1000;
     raw_Data := String.list_byte_of_string data |}.

(** A gateway that answers every request with status 200 and a body the
    stand-in decoder accepts. *)
Definition answering : Http.Env := {|
  Http.env_Do _ _ :=
    Http.DoResponse 200 (String.list_byte_of_string "{}") None;
  Http.env_elapsed _ := 1000000%Z;
  Http.env_rand _ := 0%Z;
  Http.env_pick_done _ := false
|}.


(** A source that was never opened. *)
Definition fresh_source : Ws.World :=
  {| Ws.source := Ws.NewWebsocketEventSource "ws://gateway/event" "";
     Ws.chans := no_chans; Ws.receivers := [] |}.

(** The source of [opened_once] after one [Close]. *)
Definition closed_once : Ws.World :=
  match Ws.Close (fun _ => None) opened_once with
  | Ok _ wd => wd
  | Panicked _ wd => wd
  end.

(** A stand-in for zlib: a compressed message is its payload behind the
    byte 0x78; anything else is rejected by [zlib.NewReader]. *)
Definition zlib_decoders : Ws.Decoders := {|
  Ws.zlib_NewReader message :=
    match message with
    | Byte.x78 :: _ => None
    | _ => Some (lib_error "zlib: invalid header")
    end;
  Ws.io_ReadAll message := (tail message, None);
  Ws.zlib_Close _ := None;
  Ws.json_Unmarshal_RawEvent messageBytes rawEvent :=
    if looks_like_json messageBytes
    then ({| raw_Type := "message_receive"; SelfID := 1%Z; Time := 1000%Z;
             raw_Data := messageBytes |}, None)
    else (rawEvent, Some invalid_character)
|}.

(** A stand-in codec whose [http.NewRequest] rejects a URL that starts
    with a colon. *)
Definition picky_codec : Http.Codec bytes bytes := {|
  Http.url_JoinPath base endpoint := ((base ++ "/" ++ endpoint)%string, None);
  Http.http_NewRequest urlPath :=
    if String.prefix ":" urlPath
    then Some (lib_error "missing protocol scheme") else None;
  Http.json_Marshal r := (r, None);
  Http.json_Unmarshal_HttpResult body result :=
    if looks_like_json body
    then ({| Http.Status := "ok"; Http.Code := 0%Z; Http.Data := body |}, None)
    else (result, Some invalid_character);
  Http.json_Unmarshal data slot :=
    if looks_like_json data then (data, None)
    else (slot, Some invalid_character)
|}.

(** An event of a type nobody registered. *)
Definition a_nudge : RawEvent :=
  {| raw_Type := "group_nudge"; SelfID := 1; Time := 1000;
     raw_Data := String.list_byte_of_string "{}" |}.

End Sample.

(** * Properties *)

(** ** The segment builder *)

Section SegmentsTheory.
Import Segments.

Lemma Append_sticky segment err sb e :
  sb_error sb = Some e -> Append segment err sb = sb.
Proof. intros H. unfold Append. now rewrite H. Qed.

Lemma AppendAll_sticky calls sb e :
  sb_error sb = Some e -> AppendAll calls sb = sb.
Proof.
  revert sb. induction calls as [|c calls IH]; intros sb H; [reflexivity|].
  change (AppendAll (c :: calls) sb)
    with (AppendAll calls (Append (fst c) (snd c) sb)).
  rewrite (Append_sticky _ _ _ _ H). now apply IH.
Qed.

Lemma AppendAll_app calls1 calls2 sb :
  AppendAll (calls1 ++ calls2) sb = AppendAll calls2 (AppendAll calls1 sb).
Proof. apply foldl_app. Qed.

Lemma AppendAll_no_error calls sb :
  sb_error sb = None -> no_error calls ->
  AppendAll calls sb =
    {| segments := segments sb ++ map fst calls; sb_error := None |}.
Proof.
  revert sb. induction calls as [|[s e] calls IH]; intros sb Hsb Hall.
  - cbn. rewrite app_nil_r. destruct sb; cbn in *; now subst.
  - inversion Hall as [|? ? He Hrest]; subst. cbn in He. subst e.
    change (AppendAll ((s, None) :: calls) sb)
      with (AppendAll calls (Append s None sb)).
    assert (Hstep : Append s None sb =
              {| segments := segments sb ++ [s]; sb_error := None |}).
    { unfold Append. now rewrite Hsb. }
    rewrite Hstep, IH; [|reflexivity|assumption].
    cbn. now rewrite <- app_assoc.
Qed.

(** Every chain of calls is free of errors or has a first call with one. *)
Lemma first_error_split (calls : list (Segment * option error)) :
  no_error calls \/
  exists before s e after,
    calls = before ++ (s, Some e) :: after /\ no_error before.
Proof.
  induction calls as [|[s [e|]] calls IH].
  - left. constructor.
  - right. exists [], s, e, calls. split; [reflexivity | constructor].
  - destruct IH as [Hall | (before & s' & e' & after & -> & Hbefore)].
    + left. constructor; [reflexivity | assumption].
    + right. exists ((s, None) :: before), s', e', after.
      split; [reflexivity | constructor; [reflexivity | assumption]].
Qed.

Lemma AppendAll_first_error before s e :
  no_error before ->
  AppendAll (before ++ [(s, Some e)]) NewSegmentBuilder =
    {| segments := map fst before; sb_error := Some e |}.
Proof.
  intros Hbefore. rewrite AppendAll_app.
  rewrite (AppendAll_no_error before NewSegmentBuilder eq_refl Hbefore).
  reflexivity.
Qed.

(** C10. The builder is first-error-wins.  Take any chain of [Append]
    calls on a new builder.  If no call carries an error, [Build] returns
    the appended segments in call order with a nil error.  Otherwise let
    the first call with an error carry [e]: right after it the builder
    holds the segments appended before it and [e]; every later call
    leaves the builder as it is; and [Build] returns a nil slice with
    [e]. *)
Theorem SegmentBuilder_first_error_wins
    (calls : list (Segment * option error)) :
  (no_error calls /\
   Build (AppendAll calls NewSegmentBuilder) = (Some (map fst calls), None))
  \/
  (exists before s e after,
     calls = before ++ (s, Some e) :: after /\ no_error before /\
     let sb := AppendAll (before ++ [(s, Some e)]) NewSegmentBuilder in
     sb = {| segments := map fst before; sb_error := Some e |} /\
     (forall s' e', Append s' e' sb = sb) /\
     (forall n,
        AppendAll (before ++ (s, Some e) :: take n after) NewSegmentBuilder
        = sb) /\
     Build (AppendAll calls NewSegmentBuilder) = (None, Some e)).
Proof.
  destruct (first_error_split calls)
    as [Hall | (before & s & e & after & -> & Hbefore)].
  - left. split; [assumption|].
    rewrite (AppendAll_no_error calls NewSegmentBuilder eq_refl Hall).
    reflexivity.
  - right. exists before, s, e, after.
    split; [reflexivity|]. split; [assumption|].
    pose proof (AppendAll_first_error before s e Hbefore) as Hsb.
    cbn zeta. rewrite Hsb.
    assert (Hlater : forall rest,
      AppendAll (before ++ (s, Some e) :: rest) NewSegmentBuilder =
        {| segments := map fst before; sb_error := Some e |}).
    { intros rest.
      change (before ++ (s, Some e) :: rest)
        with (before ++ [(s, Some e)] ++ rest).
      rewrite app_assoc, AppendAll_app, Hsb.
      now apply AppendAll_sticky with (e := e). }
    split; [reflexivity|]. split.
    { intros s' e'. now apply Append_sticky with (e := e). }
    split; [intros n; apply Hlater|].
    rewrite Hlater. reflexivity.
Qed.

End SegmentsTheory.

(** ** The streaming connection *)

Section WsTheory.
Import Ws.

(** C7. [Open] on a source whose connection handle is not nil returns the
    "already connected" error and changes nothing: the handle, the event
    channel and the close channel of the source, the state of every
    channel, and the receive goroutines (none is started, none stopped)
    are the ones from before the call. *)
Theorem Open_already_connected
    (Dial : string -> list (string * string) -> error + Conn)
    (wd : World) (conn : Conn) :
  wsConn (source wd) = Some conn ->
  Open Dial wd = ((None, Some ErrAlreadyConnected), wd) /\
  Error ErrAlreadyConnected = "already connected".
Proof.
  intros Hopen. split; [|reflexivity].
  unfold Open. now rewrite Hopen.
Qed.

(** A source on which [Open] was never called has no close channel. *)
Lemma NewWebsocketEventSource_closeChan wsGateway accessToken :
  closeChan (NewWebsocketEventSource wsGateway accessToken) = None /\
  wsConn (NewWebsocketEventSource wsGateway accessToken) = None.
Proof. split; reflexivity. Qed.

Lemma receive_from_nil cs : receive_from None cs = Blocks_forever.
Proof. reflexivity. Qed.

(** C8. In the never-opened state [Bot.Wait] returns at once (it tests
    the close channel for nil), while [WebsocketEventSource.Wait]
    receives from the nil channel and so blocks for ever. *)
Theorem Wait_never_opened :
  (forall (Event : Type) (heap : list Event) (cs : Chans),
     Dispatch.Wait
       {| Dispatch.bot := Dispatch.NewBot; Dispatch.heap := heap;
          Dispatch.chans := cs |} = Proceeds) /\
  (forall (wsGateway accessToken : string) (cs : Chans) (rs : list Receiver),
     Wait {| source := NewWebsocketEventSource wsGateway accessToken;
             chans := cs; receivers := rs |} = Blocks_forever).
Proof.
  split.
  - intros Event heap cs. reflexivity.
  - intros wsGateway accessToken cs rs. unfold Wait. cbn [source chans].
    destruct (NewWebsocketEventSource_closeChan wsGateway accessToken)
      as [-> _].
    apply receive_from_nil.
Qed.

Context `{!Decoders}.

(** A text frame is decoded as it is; whatever [json.Unmarshal] left in
    the event is sent, with or without an error. *)
Lemma receive_turn_text conn_Close r message wd rawEvent err :
  json_Unmarshal_RawEvent message RawEvent_zero = (rawEvent, err) ->
  rc_eventChan r ∉ closed (chans wd) ->
  receive_turn conn_Close r (Message TextMessage message) wd =
    (log_if err "Failed to decode message: %v" ++
     [Logf "DEBUG" "Received event: {event_type: %s, self_id: %d, time: %d, data: %s}";
      Send (rc_eventChan r) rawEvent],
     if decide (rc_closeChan r ∈ closed (chans wd)) then Exit wd else Next wd).
Proof.
  intros Hdec Hopen. unfold receive_turn.
  change (TextMessage =? BinaryMessage)%Z with false. cbn iota.
  rewrite Hdec. cbn [app].
  destruct (decide (rc_eventChan r ∈ closed (chans wd))) as [Hin|_];
    [contradiction|].
  now rewrite <- app_assoc.
Qed.

(** C2, as the code has it.  A text frame that fails to decode as a
    [RawEvent] is logged but not dropped: the turn goes on to send the
    event [json.Unmarshal] left behind on the event channel, and the
    loop continues. *)
Theorem receive_sends_undecodable_frame conn_Close r message wd rawEvent err :
  json_Unmarshal_RawEvent message RawEvent_zero = (rawEvent, Some err) ->
  rc_eventChan r ∉ closed (chans wd) ->
  rc_closeChan r ∉ closed (chans wd) ->
  receive_turn conn_Close r (Message TextMessage message) wd =
    ([Logf "ERROR" "Failed to decode message: %v";
      Logf "DEBUG" "Received event: {event_type: %s, self_id: %d, time: %d, data: %s}";
      Send (rc_eventChan r) rawEvent],
     Next wd).
Proof.
  intros Hdec Hev Hcl.
  rewrite (receive_turn_text conn_Close r message wd rawEvent (Some err) Hdec Hev).
  destruct (decide (rc_closeChan r ∈ closed (chans wd))) as [Hin|_];
    [contradiction|].
  reflexivity.
Qed.

End WsTheory.

Section WsExamples.
Import Sample.

Lemma Open_already_connected_witness :
  Ws.wsConn (Ws.source opened_once) = Some 7%nat /\
  Ws.Open (fun _ _ => inr 8%nat) opened_once =
    ((None, Some ErrAlreadyConnected), opened_once).
Proof.
  split; [reflexivity|].
  apply (Open_already_connected (fun _ _ => inr 8%nat) opened_once 7%nat).
  reflexivity.
Defined.

Lemma receive_sends_undecodable_frame_witness :
  Ws.receive_turn (fun _ => None) receiver_7
    (Ws.Message Ws.TextMessage (String.list_byte_of_string "not json"))
    opened_once =
    ([Ws.Logf "ERROR" "Failed to decode message: %v";
      Ws.Logf "DEBUG" "Received event: {event_type: %s, self_id: %d, time: %d, data: %s}";
      Ws.Send 0%nat RawEvent_zero],
     Ws.Next opened_once).
Proof.
  apply (receive_sends_undecodable_frame (fun _ => None) receiver_7
           (String.list_byte_of_string "not json") opened_once
           RawEvent_zero Sample.invalid_character).
  - reflexivity.
  - vm_compute. set_solver.
  - vm_compute. set_solver.
Defined.

End WsExamples.

(** ** The dispatcher *)

Section DispatchTheory.
Import Dispatch.
Context {Event : Type} `{!Events Event}.

(** C9. Two successive [SetEventRegistry] calls with one identifier: the
    second overwrites the first.  The method has no result and no failing
    path (the model is a total function from bots to bots), so the
    "event registry already exists" error is never raised, also when the
    identifier is already registered; the rest of the bot is untouched. *)
Theorem SetEventRegistry_overwrites
    (b : Bot (Event := Event)) (eventType : string) (first second : Event) :
  let b1 := SetEventRegistry eventType first b in
  let b2 := SetEventRegistry eventType second b1 in
  eventRegistries b1 !! eventType = Some first /\
  eventRegistries b2 !! eventType = Some second /\
  b2 = SetEventRegistry eventType second b /\
  (forall other, other <> eventType ->
     eventRegistries b2 !! other = eventRegistries b !! other) /\
  eventHandlers b2 = eventHandlers b /\
  closeChan b2 = closeChan b /\
  Error ErrEventRegistryAlreadyExists = "event registry already exists".
Proof.
  cbn zeta. unfold SetEventRegistry. cbn.
  split; [apply lookup_insert_eq|].
  split; [apply lookup_insert_eq|].
  split; [now rewrite insert_insert_eq|].
  split; [|now repeat split].
  intros other Hne. now rewrite !lookup_insert_ne.
Qed.

Lemma Handle_lookup handler (b : Bot (Event := Event)) T :
  eventHandlers (Handle handler b) !! T =
    if decide (handler_Type handler = T)
    then Some (default [] (eventHandlers b !! T) ++ [handler])
    else eventHandlers b !! T.
Proof.
  unfold Handle. cbn. destruct (decide (handler_Type handler = T)) as [<-|Hne].
  - apply lookup_insert_eq.
  - now apply lookup_insert_ne.
Qed.

Lemma HandleAll_lookup handlers (b : Bot (Event := Event)) T :
  eventHandlers (HandleAll handlers b) !! T =
    match of_type T handlers with
    | [] => eventHandlers b !! T
    | mine => Some (default [] (eventHandlers b !! T) ++ mine)
    end.
Proof.
  revert b. induction handlers as [|handler handlers IH]; intros b.
  - reflexivity.
  - change (HandleAll (handler :: handlers) b)
      with (HandleAll handlers (Handle handler b)).
    rewrite IH, Handle_lookup. unfold of_type.
    rewrite filter_cons.
    destruct (decide (handler_Type handler = T)) as [Heq|Hne].
    + cbn [default].
      destruct (filter _ handlers) as [|h' rest]; [reflexivity|].
      unfold id. now rewrite <- app_assoc.
    + reflexivity.
Qed.

Lemma HandleAll_NewBot handlers T :
  eventHandlers (HandleAll handlers (NewBot (Event := Event))) !! T =
    match of_type T handlers with
    | [] => None
    | mine => Some mine
    end.
Proof.
  rewrite HandleAll_lookup. cbn. rewrite lookup_empty. reflexivity.
Qed.

Variable run : EventHandler -> nat -> RawEvent -> World (Event := Event)
                 -> World (Event := Event).

Lemma invoke_all_effects handlers event rawEvent wd :
  fst (invoke_all run handlers event rawEvent wd) =
    map (fun handler => Invoke handler event rawEvent) handlers.
Proof.
  revert wd. induction handlers as [|handler rest IH]; intros wd.
  - reflexivity.
  - cbn [invoke_all map]. specialize (IH (run handler event rawEvent wd)).
    destruct (invoke_all run rest event rawEvent (run handler event rawEvent wd))
      as [effs wd'].
    cbn in *. now rewrite IH.
Qed.

Lemma handleEvent_loop_app before after wd :
  handleEvent_loop run (before ++ after) wd =
    let '(effs, wd1) := handleEvent_loop run before wd in
    let '(effs', wd2) := handleEvent_loop run after wd1 in
    (effs ++ effs', wd2).
Proof.
  revert wd. induction before as [|rawEvent before IH]; intros wd.
  - cbn. now destruct (handleEvent_loop run after wd).
  - cbn [app handleEvent_loop].
    destruct (handleEvent_turn run rawEvent wd) as [effs0 wd0].
    rewrite IH.
    destruct (handleEvent_loop run before wd0) as [effs1 wd1].
    destruct (handleEvent_loop run after wd1) as [effs2 wd2].
    now rewrite app_assoc.
Qed.

(** A turn that finds the prototype and the handlers and decodes the
    payload calls the handlers it found on the new object. *)
Lemma handleEvent_turn_decoded wd rawEvent eventRegistry handlers event :
  eventRegistries (bot wd) !! raw_Type rawEvent = Some eventRegistry ->
  eventHandlers (bot wd) !! Event_Type eventRegistry = Some handlers ->
  json_Decode (raw_Data rawEvent) (Event_New eventRegistry) = (event, None) ->
  handleEvent_turn run rawEvent wd =
    invoke_all run handlers (length (heap wd)) rawEvent
      {| bot := bot wd; heap := heap wd ++ [event]; chans := chans wd |}.
Proof.
  intros Hreg Hhandlers Hdecode. unfold handleEvent_turn.
  rewrite Hreg, Hhandlers. unfold new_decoded. now rewrite Hdecode.
Qed.

(** The turns that call nobody. *)
Lemma handleEvent_turn_skips wd rawEvent :
  eventRegistries (bot wd) !! raw_Type rawEvent = None \/
  (exists eventRegistry,
     eventRegistries (bot wd) !! raw_Type rawEvent = Some eventRegistry /\
     (eventHandlers (bot wd) !! Event_Type eventRegistry = None \/
      exists err,
        snd (json_Decode (raw_Data rawEvent) (Event_New eventRegistry))
          = Some err)) ->
  invocations (fst (handleEvent_turn run rawEvent wd)) = [].
Proof.
  unfold handleEvent_turn, new_decoded.
  intros [-> | (eventRegistry & -> & [-> | [err Herr]])]; try reflexivity.
  destruct (eventHandlers (bot wd) !! Event_Type eventRegistry);
    [|reflexivity].
  destruct (json_Decode (raw_Data rawEvent) (Event_New eventRegistry))
    as [event err'].
  cbn in Herr. subst err'. reflexivity.
Qed.

(** C3, amended.  Let the dispatch loop have consumed [before] and be
    about to consume [rawEvent].  If the type identifier of [rawEvent] is
    in the event registry, the handler registry is the one built by the
    [Handle] calls [registered] (in this order) on a new bot, at least
    one of them declares the type that the registered prototype reports,
    and the payload decodes into a fresh instance of the prototype, then
    the turn for [rawEvent] invokes exactly the handlers of that type,
    each once, in their registration order, each with the new object
    (which holds the decoded event when the first handler is entered) and
    with [rawEvent]; and these calls follow the effects of [before] in
    the effects of the whole loop. *)
Theorem handleEvent_invokes_in_registration_order
    (wd0 : World (Event := Event)) (before after : list RawEvent)
    (rawEvent : RawEvent) (eventRegistry event : Event)
    (registered : list EventHandler) :
  let wd := snd (handleEvent_loop run before wd0) in
  let mine := of_type (Event_Type eventRegistry) registered in
  let p := length (heap wd) in
  let wd1 := {| bot := bot wd; heap := heap wd ++ [event];
                chans := chans wd |} in
  eventRegistries (bot wd) !! raw_Type rawEvent = Some eventRegistry ->
  eventHandlers (bot wd) =
    eventHandlers (HandleAll registered (NewBot (Event := Event))) ->
  mine <> [] ->
  json_Decode (raw_Data rawEvent) (Event_New eventRegistry) = (event, None) ->
  heap wd1 !! p = Some event /\
  handleEvent_turn run rawEvent wd = invoke_all run mine p rawEvent wd1 /\
  fst (handleEvent_turn run rawEvent wd) =
    map (fun handler => Invoke handler p rawEvent) mine /\
  exists later,
    fst (handleEvent run (before ++ rawEvent :: after) wd0) =
      fst (handleEvent_loop run before wd0) ++
      map (fun handler => Invoke handler p rawEvent) mine ++ later.
Proof.
  intros wd mine p wd1 Hreg Hhandlers Hmine Hdecode.
  assert (Hturn : handleEvent_turn run rawEvent wd =
                    invoke_all run mine p rawEvent wd1).
  { apply handleEvent_turn_decoded with (eventRegistry := eventRegistry);
      try assumption.
    rewrite Hhandlers, HandleAll_NewBot. fold mine.
    destruct mine as [|handler rest]; [contradiction | reflexivity]. }
  split.
  { subst wd1 p. cbn [heap]. rewrite lookup_app_r by lia.
    now rewrite Nat.sub_diag. }
  split; [exact Hturn|].
  split; [rewrite Hturn; apply invoke_all_effects|].
  unfold handleEvent. rewrite handleEvent_loop_app.
  subst wd. destruct (handleEvent_loop run before wd0) as [effs0 wdb].
  cbn [snd fst] in *. cbn [handleEvent_loop].
  pose proof (invoke_all_effects mine p rawEvent wd1) as Heffs.
  rewrite Hturn.
  destruct (invoke_all run mine p rawEvent wd1) as [effs1 wdt].
  cbn [fst] in Heffs. subst effs1.
  destruct (handleEvent_loop run after wdt) as [effs2 wd2].
  exists effs2. reflexivity.
Qed.

End DispatchTheory.

(** ** From a frame to the handlers *)

Section Pipeline.
Context {Event : Type} `{!Dispatch.Events Event} `{!Ws.Decoders}.
Variable run : Dispatch.EventHandler -> nat -> RawEvent ->
                 Dispatch.World (Event := Event) ->
                 Dispatch.World (Event := Event).

(** What a frame that failed to decode left in the envelope goes all the
    way: when its type is registered with handlers and its payload
    decodes, the handlers are called with it. *)
Lemma undecodable_frame_reaches_handlers conn_Close r message wsd
    rawEvent err (wd : Dispatch.World (Event := Event))
    eventRegistry handlers event :
  Ws.json_Unmarshal_RawEvent message RawEvent_zero = (rawEvent, Some err) ->
  Ws.rc_eventChan r ∉ closed (Ws.chans wsd) ->
  Dispatch.eventRegistries (Dispatch.bot wd) !! raw_Type rawEvent
    = Some eventRegistry ->
  Dispatch.eventHandlers (Dispatch.bot wd) !! Dispatch.Event_Type eventRegistry
    = Some handlers ->
  Dispatch.json_Decode (raw_Data rawEvent) (Dispatch.Event_New eventRegistry)
    = (event, None) ->
  In (Ws.Send (Ws.rc_eventChan r) rawEvent)
     (fst (Ws.receive_turn conn_Close r
             (Ws.Message Ws.TextMessage message) wsd)) /\
  fst (Dispatch.handleEvent_turn run rawEvent wd) =
    map (fun handler =>
           Dispatch.Invoke handler (length (Dispatch.heap wd)) rawEvent)
        handlers.
Proof.
  intros Hframe Hopen Hreg Hhandlers Hdecode. split.
  - rewrite (receive_turn_text conn_Close r message wsd rawEvent (Some err)
               Hframe Hopen).
    cbn. right. right. now left.
  - rewrite (handleEvent_turn_decoded run wd rawEvent eventRegistry handlers
               event Hreg Hhandlers Hdecode).
    apply invoke_all_effects.
Qed.

End Pipeline.

Section DispatchExamples.
Import Dispatch Sample.

(** C3, as the specification words it, fails twice.  A handler of the
    event's type is not called when the registered prototype reports
    another type, because the handlers are looked up under the type of
    the prototype; and no handler is called when the payload does not
    decode. *)
Lemma handleEvent_claim_counterexample :
  ~ handleEvent_claim quiet (a_message "{}") mismatched /\
  ~ handleEvent_claim quiet (a_message "") matched.
Proof.
  split; intros Hclaim.
  - specialize (Hclaim ("bot_offline", []) [on_message "first"]
                  eq_refl eq_refl ltac:(discriminate)).
    vm_compute in Hclaim. discriminate Hclaim.
  - specialize (Hclaim ("message_receive", [])
                  [on_message "first"; on_message "second"]
                  eq_refl eq_refl ltac:(discriminate)).
    vm_compute in Hclaim. discriminate Hclaim.
Qed.

Lemma handleEvent_invokes_in_registration_order_witness :
  fst (handleEvent_turn quiet (a_message "{}") matched) =
    [Invoke (on_message "first") 0 (a_message "{}");
     Invoke (on_message "second") 0 (a_message "{}")].
Proof.
  pose proof (handleEvent_invokes_in_registration_order quiet matched [] []
                (a_message "{}") ("message_receive", [])
                ("message_receive", String.list_byte_of_string "{}")
                [on_message "first"; on_offline "other"; on_message "second"])
    as H.
  cbn zeta in H.
  destruct (H eq_refl eq_refl ltac:(discriminate) eq_refl)
    as (_ & _ & Hcalls & _).
  exact Hcalls.
Defined.

End DispatchExamples.

(** ** The command client *)

Section HttpArith.
Import Http.
Local Open Scope Z_scope.

Lemma wrap64_small z : MinInt64 <= z <= MaxInt64 -> wrap64 z = z.
Proof.
  unfold MinInt64, MaxInt64, wrap64. intros Hz.
  rewrite Z.mod_small by lia. lia.
Qed.

Lemma wrap64_range z : MinInt64 <= wrap64 z <= MaxInt64.
Proof.
  unfold MinInt64, MaxInt64, wrap64.
  pose proof (Z.mod_pos_bound (z + 2 ^ 63) (2 ^ 64) ltac:(lia)). lia.
Qed.

Lemma wrap64_plus_multiple z k : wrap64 (z + k * 2 ^ 64) = wrap64 z.
Proof.
  unfold wrap64.
  replace (z + k * 2 ^ 64 + 2 ^ 63) with (z + 2 ^ 63 + k * 2 ^ 64) by ring.
  now rewrite Z_mod_plus_full.
Qed.

Lemma wrap64_decomp z : exists k, wrap64 z = z + k * 2 ^ 64.
Proof.
  exists (- ((z + 2 ^ 63) / 2 ^ 64)). unfold wrap64.
  pose proof (Z.div_mod (z + 2 ^ 63) (2 ^ 64) ltac:(lia)). lia.
Qed.

Lemma add64_wrap_l a b : add64 (wrap64 a) b = wrap64 (a + b).
Proof.
  unfold add64. destruct (wrap64_decomp a) as [k ->].
  replace (a + k * 2 ^ 64 + b) with (a + b + k * 2 ^ 64) by ring.
  apply wrap64_plus_multiple.
Qed.

Lemma mul64_wrap_r a b : mul64 a (wrap64 b) = wrap64 (a * b).
Proof.
  unfold mul64. destruct (wrap64_decomp b) as [k ->].
  replace (a * (b + k * 2 ^ 64)) with (a * b + (a * k) * 2 ^ 64) by ring.
  apply wrap64_plus_multiple.
Qed.

(** The jitter lies in [[0, maxRetryJitter)]; a bound that is not
    positive makes [rand.Int64N] panic. *)
Lemma rand_Int64N_range draw n jitter :
  rand_Int64N draw n = Some jitter -> 0 <= jitter < n.
Proof.
  unfold rand_Int64N. destruct (n <=? 0) eqn:Hn; [discriminate|].
  intros [= <-]. apply Z.mod_pos_bound. lia.
Qed.

Lemma rand_Int64N_positive draw n :
  0 < n -> rand_Int64N draw n = Some (draw mod n).
Proof.
  intros Hn. unfold rand_Int64N.
  destruct (n <=? 0) eqn:E; [lia | reflexivity].
Qed.

(** The delay in 64-bit arithmetic, in one reduction. *)
Lemma retry_delay_wrap h attempt jitter :
  0 <= attempt ->
  retry_delay h attempt jitter =
    Some (Z.min (wrap64 (baseRetryDelay h * 2 ^ attempt + jitter))
                (maxRetryDelay h)).
Proof.
  intros Ha. unfold retry_delay, shl64.
  destruct (attempt <? 0) eqn:E; [lia|].
  rewrite Z.shiftl_mul_pow2 by assumption. rewrite Z.mul_1_l.
  now rewrite mul64_wrap_r, add64_wrap_l.
Qed.

(** As long as the sum fits 64 bits, the delay is the one of the
    specification: [min(maxDelay, baseDelay * 2^attempt + jitter)]. *)
Lemma retry_delay_in_range h attempt jitter :
  0 <= attempt ->
  MinInt64 <= baseRetryDelay h * 2 ^ attempt + jitter <= MaxInt64 ->
  retry_delay h attempt jitter =
    Some (Z.min (maxRetryDelay h) (baseRetryDelay h * 2 ^ attempt + jitter)).
Proof.
  intros Ha Hfit. rewrite retry_delay_wrap by assumption.
  rewrite wrap64_small by assumption. now rewrite Z.min_comm.
Qed.

(** The defaults of [NewHttpClient]. *)
Lemma NewHttpClient_defaults restGateway accessToken :
  let h := NewHttpClient restGateway accessToken in
  maxRetries h = 5 /\
  baseRetryDelay h = 100 * Millisecond /\
  maxRetryDelay h = 5 * Second /\
  maxRetryJitter h = 100 * Millisecond /\
  client_Timeout h = 10 * Second.
Proof. cbn. repeat split. Qed.

(** With the defaults every delay the loop computes (attempts 0 to 5)
    follows the formula, and stays below the cap. *)
Lemma retry_delay_defaults restGateway accessToken attempt draw :
  let h := NewHttpClient restGateway accessToken in
  0 <= attempt <= maxRetries h ->
  exists jitter,
    rand_Int64N draw (maxRetryJitter h) = Some jitter /\
    0 <= jitter < 100 * Millisecond /\
    retry_delay h attempt jitter =
      Some (Z.min (5 * Second) (100 * Millisecond * 2 ^ attempt + jitter)).
Proof.
  intros h [Hlo Hhi]. change (maxRetries h) with 5 in Hhi.
  exists (draw mod (100 * Millisecond)).
  assert (Hj : 0 <= draw mod (100 * Millisecond) < 100 * Millisecond).
  { apply Z.mod_pos_bound. reflexivity. }
  split; [reflexivity|]. split; [exact Hj|].
  apply (retry_delay_in_range h attempt _ Hlo).
  change (baseRetryDelay h) with (100 * Millisecond).
  assert (Hpow : 1 <= 2 ^ attempt <= 2 ^ 5).
  { pose proof (Z.pow_pos_nonneg 2 attempt ltac:(lia) Hlo).
    split; [lia | apply Z.pow_le_mono_r; lia]. }
  unfold MinInt64, MaxInt64, Millisecond, Microsecond, Nanosecond in *.
  nia.
Qed.

(** C4, where the code leaves the formula.  A client made by
    [NewHttpClientWithOptions] with 40 retries and the default delays
    comes to the failed attempt with counter 37, where
    [baseRetryDelay * 2^37] no longer fits 64 bits: whatever the jitter
    drawn, the delay handed to [time.After] is negative, whereas
    [min(maxRetryDelay, baseRetryDelay * 2^37 + jitter)] is the cap of
    5 s. *)
Theorem retry_delay_overflows (draw : Z) :
  let h := Sample.forty_retries in
  37 <= maxRetries h /\
  exists jitter delay,
    rand_Int64N draw (maxRetryJitter h) = Some jitter /\
    retry_delay h 37 jitter = Some delay /\
    delay = jitter - 4702848726509551616 /\
    delay < 0 /\
    Z.min (maxRetryDelay h) (baseRetryDelay h * 2 ^ 37 + jitter) = 5 * Second.
Proof.
  intros h. split; [cbn; lia|].
  exists (draw mod (100 * Millisecond)).
  assert (Hj : 0 <= draw mod (100 * Millisecond) < 100 * Millisecond).
  { apply Z.mod_pos_bound. reflexivity. }
  set (jitter := draw mod (100 * Millisecond)) in *.
  exists (jitter - 4702848726509551616).
  split; [reflexivity|].
  assert (Hw : wrap64 (baseRetryDelay h * 2 ^ 37 + jitter)
               = jitter - 4702848726509551616).
  { change (baseRetryDelay h * 2 ^ 37) with
      (- 4702848726509551616 + 1 * 2 ^ 64).
    replace (-4702848726509551616 + 1 * 2 ^ 64 + jitter)
      with (jitter - 4702848726509551616 + 1 * 2 ^ 64) by ring.
    rewrite wrap64_plus_multiple. apply wrap64_small.
    unfold MinInt64, MaxInt64, Millisecond, Microsecond, Nanosecond in *.
    lia. }
  split.
  { rewrite retry_delay_wrap by lia. rewrite Hw. f_equal.
    change (maxRetryDelay h) with 5000000000.
    unfold Millisecond, Microsecond, Nanosecond in Hj. lia. }
  split; [reflexivity|].
  split.
  { unfold Millisecond, Microsecond, Nanosecond in Hj. lia. }
  change (maxRetryDelay h) with 5000000000.
  change (baseRetryDelay h * 2 ^ 37) with 13743895347200000000.
  change (5 * Second) with 5000000000.
  unfold Millisecond, Microsecond, Nanosecond in Hj. lia.
Qed.

End HttpArith.

Section HttpTheory.
Import Http.
Local Open Scope Z_scope.
Context {Req Resp : Type} `{!Codec Req Resp}.

(** C5. One attempt.
    - It returns a nil error only if a response was read whose status
      code lies in [[200, 300)].
    - Once a response is read: a status outside [[200, 300)] fails the
      attempt; inside it, a nil response slot or status 204 completes
      with a nil error and the slot as it was, whatever the body and the
      envelope decoder; otherwise the body is decoded as an [HttpResult]
      envelope and the envelope's data into the slot, and a failure of
      either decoding fails the attempt. *)
Theorem doPost_status_and_envelope (h : HttpClient) (Do : Request -> DoResult)
    (urlPath : string) (request : option Req) (response : option Resp) :
  (forall slot',
     doPost h Do urlPath request response = (None, slot') ->
     exists jsonBytes StatusCode body,
       request_body request = (jsonBytes, None) /\
       Do (new_request h urlPath jsonBytes) = DoResponse StatusCode body None /\
       200 <= StatusCode < 300) /\
  (forall jsonBytes StatusCode body,
     request_body request = (jsonBytes, None) ->
     http_NewRequest urlPath = None ->
     Do (new_request h urlPath jsonBytes) = DoResponse StatusCode body None ->
     (StatusCode < 200 \/ 300 <= StatusCode ->
      doPost h Do urlPath request response =
        (Some (Errorf_status StatusCode body), response)) /\
     (200 <= StatusCode < 300 ->
      (response = None \/ StatusCode = 204 ->
       doPost h Do urlPath request response = (None, response)) /\
      (forall slot result slot',
         response = Some slot -> StatusCode <> 204 ->
         json_Unmarshal_HttpResult body
           {| Status := ""; Code := 0; Data := [] |} = (result, None) ->
         json_Unmarshal (Data result) slot = (slot', None) ->
         doPost h Do urlPath request response = (None, Some slot')) /\
      (forall slot result err,
         response = Some slot -> StatusCode <> 204 ->
         json_Unmarshal_HttpResult body
           {| Status := ""; Code := 0; Data := [] |} = (result, Some err) ->
         doPost h Do urlPath request response =
           (Some (Errorf_w "failed to decode response" err), Some slot)) /\
      (forall slot result slot' err,
         response = Some slot -> StatusCode <> 204 ->
         json_Unmarshal_HttpResult body
           {| Status := ""; Code := 0; Data := [] |} = (result, None) ->
         json_Unmarshal (Data result) slot = (slot', Some err) ->
         is_EOF err = false ->
         doPost h Do urlPath request response =
           (Some (Errorf_w "failed to decode response" err), Some slot')))).
Proof.
  split.
  - intros slot'. unfold doPost.
    destruct (request_body request) as [jsonBytes [e|]]; [discriminate|].
    destruct (http_NewRequest urlPath); [discriminate|].
    destruct (Do (new_request h urlPath jsonBytes))
      as [e | StatusCode body [e|]] eqn:HDo; try discriminate.
    destruct ((StatusCode <? StatusOK) || (StatusMultipleChoices <=? StatusCode))
      eqn:Hstatus; [discriminate|].
    intros _. exists jsonBytes, StatusCode, body.
    split; [reflexivity|]. split; [exact HDo|].
    apply orb_false_elim in Hstatus as [Hlo Hhi].
    unfold StatusOK, StatusMultipleChoices in *. lia.
  - intros jsonBytes StatusCode body Hbody Hnew HDo.
    unfold doPost. rewrite Hbody, Hnew, HDo.
    unfold StatusOK, StatusMultipleChoices, StatusNoContent.
    split.
    + intros Hout.
      destruct ((StatusCode <? 200) || (300 <=? StatusCode)) eqn:Hstatus;
        [reflexivity|].
      apply orb_false_elim in Hstatus as [Hlo Hhi]. lia.
    + intros Hin.
      destruct ((StatusCode <? 200) || (300 <=? StatusCode)) eqn:Hstatus.
      { apply orb_true_iff in Hstatus as [Hlo | Hhi]; lia. }
      split.
      { intros [-> | ->]; [reflexivity|].
        destruct response as [slot|]; reflexivity. }
      split.
      { intros slot result slot' -> Hne Hres Hdata.
        destruct (StatusCode =? 204) eqn:E; [lia|].
        now rewrite Hres, Hdata. }
      split.
      { intros slot result err -> Hne Hres.
        destruct (StatusCode =? 204) eqn:E; [lia|].
        now rewrite Hres. }
      intros slot result slot' err -> Hne Hres Hdata Heof.
      destruct (StatusCode =? 204) eqn:E; [lia|].
      now rewrite Hres, Hdata, Heof.
Qed.

(** *** The retry loop *)

Lemma select_wait_never_cancelled ctx now delay pick :
  cancel_at ctx = None ->
  select_wait ctx now delay pick = (case_After, now + Z.max 0 delay).
Proof. intros Hc. unfold select_wait. now rewrite Hc. Qed.

Lemma select_wait_cancelled_first ctx now delay pick c :
  cancel_at ctx = Some c -> now <= c < now + delay ->
  select_wait ctx now delay pick = (case_Done, c).
Proof.
  intros Hc Hduring. unfold select_wait. rewrite Hc.
  rewrite (Z.max_r now c) by lia.
  destruct (c <? now + Z.max 0 delay) eqn:E; [reflexivity | lia].
Qed.

(** A failed attempt that is followed by a wait which elapses. *)
Lemma Post_iter_retries h env ctx urlPath request st err slot' :
  doPost h (env_Do env (calls st)) urlPath request (slot st) = (Some err, slot') ->
  0 <= attempt st <= maxRetries h ->
  0 < maxRetryJitter h ->
  cancel_at ctx = None ->
  exists t,
    Post_iter h env ctx urlPath request st =
      Continue {| attempt := wrap64 (attempt st + 1); calls := S (calls st);
                  now := t; slot := slot' |}.
Proof.
  intros Hpost [Hlo Hhi] Hjit Hctx. unfold Post_iter. rewrite Hpost.
  destruct (maxRetries h <? attempt st) eqn:E; [lia|].
  rewrite rand_Int64N_positive by assumption.
  rewrite retry_delay_wrap by assumption.
  rewrite select_wait_never_cancelled by assumption.
  eexists. reflexivity.
Qed.

(** A failed attempt past the maximum ends the loop. *)
Lemma Post_iter_gives_up h env ctx urlPath request st err slot' :
  doPost h (env_Do env (calls st)) urlPath request (slot st) = (Some err, slot') ->
  maxRetries h < attempt st ->
  Post_iter h env ctx urlPath request st =
    Return (Some (Errorf_w "max retries exceeded" err))
      {| attempt := attempt st; calls := S (calls st);
         now := now st + Z.max 0 (env_elapsed env (calls st));
         slot := slot' |}.
Proof.
  intros Hpost Hgt. unfold Post_iter. rewrite Hpost.
  destruct (maxRetries h <? attempt st) eqn:E; [reflexivity | lia].
Qed.

Lemma Post_loop_always_failing h env ctx urlPath request :
  (forall k slot, fst (doPost h (env_Do env k) urlPath request slot) <> None) ->
  cancel_at ctx = None ->
  0 < maxRetryJitter h ->
  maxRetries h < MaxInt64 ->
  forall (n : nat) (st : Loop) (fuel : nat),
    0 <= attempt st ->
    attempt st + Z.of_nat n = maxRetries h + 1 ->
    (n < fuel)%nat ->
    exists err st',
      Post_loop fuel h env ctx urlPath request st =
        Some (Return (Some (Errorf_w "max retries exceeded" err)) st') /\
      calls st' = (calls st + n + 1)%nat /\
      attempt st' = maxRetries h + 1.
Proof.
  intros Hfail Hctx Hjit Hmax n.
  induction n as [|n IH]; intros st fuel Hlo Hn Hfuel.
  - destruct fuel as [|fuel]; [lia|]. cbn [Post_loop].
    destruct (doPost h (env_Do env (calls st)) urlPath request (slot st))
      as [[err|] slot'] eqn:Hpost.
    2:{ exfalso. apply (Hfail (calls st) (slot st)). now rewrite Hpost. }
    rewrite (Post_iter_gives_up h env ctx urlPath request st err slot' Hpost)
      by lia.
    exists err. eexists. split; [reflexivity|]. cbn. split; lia.
  - destruct fuel as [|fuel]; [lia|]. cbn [Post_loop].
    destruct (doPost h (env_Do env (calls st)) urlPath request (slot st))
      as [[err|] slot'] eqn:Hpost.
    2:{ exfalso. apply (Hfail (calls st) (slot st)). now rewrite Hpost. }
    destruct (Post_iter_retries h env ctx urlPath request st err slot' Hpost)
      as [t ->]; [lia | assumption | assumption |].
    assert (Hnext : wrap64 (attempt st + 1) = attempt st + 1).
    { apply wrap64_small. unfold MinInt64, MaxInt64 in *. lia. }
    rewrite Hnext.
    destruct (IH {| attempt := attempt st + 1; calls := S (calls st);
                    now := t; slot := slot' |} fuel)
      as (err' & st' & Hloop & Hcalls & Hattempt); cbn; try lia.
    exists err', st'. split; [exact Hloop|]. cbn in Hcalls. split; lia.
Qed.

(** C1, as the code has it.  When every attempt fails and the context is
    never cancelled, [Post] returns the "max retries exceeded" error
    after [maxRetries + 2] attempts, not [maxRetries + 1]: the counter
    starts at 0 and the loop gives up only when the counter exceeds the
    maximum, that is at the attempt with counter [maxRetries + 1]. *)
Theorem Post_always_failing_attempts (h : HttpClient) (env : Env)
    (ctx : Context_) (start : Z) (endpoint urlPath : string)
    (request : option Req) (response : option Resp) (fuel : nat) :
  url_JoinPath (restGateway h) endpoint = (urlPath, None) ->
  (forall k slot, fst (doPost h (env_Do env k) urlPath request slot) <> None) ->
  cancel_at ctx = None ->
  0 <= maxRetries h < MaxInt64 ->
  0 < maxRetryJitter h ->
  (Z.to_nat (maxRetries h) + 2 <= fuel)%nat ->
  exists err st,
    Post fuel h env ctx start endpoint request response =
      Some (Return (Some (Errorf_w "max retries exceeded" err)) st) /\
    calls st = (Z.to_nat (maxRetries h) + 2)%nat /\
    attempt st = maxRetries h + 1.
Proof.
  intros Hurl Hfail Hctx [Hlo Hhi] Hjit Hfuel.
  unfold Post. rewrite Hurl.
  destruct (Post_loop_always_failing h env ctx urlPath request
              Hfail Hctx Hjit Hhi (Z.to_nat (maxRetries h + 1))
              {| attempt := 0; calls := O; now := start; slot := response |}
              fuel)
    as (err & st & Hloop & Hcalls & Hattempt); cbn; try lia.
  exists err, st. split; [exact Hloop|]. cbn in Hcalls. split; lia.
Qed.

End HttpTheory.

Section HttpCancellation.
Import Http.
Local Open Scope Z_scope.
Context {Req Resp : Type} `{!Codec Req Resp}.

(** Turns that go round use up one unit of fuel each. *)
Lemma Post_loop_reach h env ctx urlPath request (n : nat) :
  forall (st0 st : Loop (Resp := Resp)) (fuel : nat),
    reach n h env ctx urlPath request st0 = Some st ->
    Post_loop (n + fuel) h env ctx urlPath request st0 =
      Post_loop fuel h env ctx urlPath request st.
Proof.
  induction n as [|n IH]; intros st0 st fuel Hreach.
  - cbn in Hreach. now injection Hreach as ->.
  - cbn [reach] in Hreach. cbn [Nat.add Post_loop].
    destruct (Post_iter h env ctx urlPath request st0) as [st1| |];
      try discriminate.
    now apply IH.
Qed.

(** Every turn that goes round has made one more attempt. *)
Lemma reach_calls h env ctx urlPath request (n : nat) :
  forall (st0 st : Loop (Resp := Resp)),
    reach n h env ctx urlPath request st0 = Some st ->
    calls st = (calls st0 + n)%nat.
Proof.
  induction n as [|n IH]; intros st0 st Hreach.
  - cbn in Hreach. injection Hreach as ->. lia.
  - cbn [reach] in Hreach.
    destruct (Post_iter h env ctx urlPath request st0) as [st1| |] eqn:Hiter;
      try discriminate.
    rewrite (IH st1 st Hreach).
    assert (calls st1 = S (calls st0)) as ->; [|lia].
    unfold Post_iter in Hiter.
    destruct (doPost h (env_Do env (calls st0)) urlPath request (slot st0))
      as [[err|] slot']; [|discriminate].
    destruct (maxRetries h <? attempt st0); [discriminate|].
    destruct (rand_Int64N _ _); [|discriminate].
    destruct (retry_delay _ _ _); [|discriminate].
    destruct (select_wait _ _ _ _) as [[|] t]; [discriminate|].
    now injection Hiter as <-.
Qed.

(** C6. Let [Post] have made the attempts 0 to [n], the last of which
    failed with a retry due, and let the wait before the next attempt
    begin at instant [entered] with delay [delay].  If the context is
    cancelled at an instant [c] during that wait
    ([entered <= c < entered + delay]), then [Post] returns the
    cancellation error at [c], before the delay is over, and the number
    of attempts made stays [n + 1]: no further attempt is performed. *)
Theorem Post_cancelled_during_backoff (h : HttpClient) (env : Env)
    (ctx : Context_) (start : Z) (endpoint urlPath : string)
    (request : option Req) (response : option Resp)
    (n fuel : nat) (st : Loop) (err : error) (slot' : option Resp)
    (jitter delay c : Z) :
  url_JoinPath (restGateway h) endpoint = (urlPath, None) ->
  reach n h env ctx urlPath request
    {| attempt := 0; calls := O; now := start; slot := response |} = Some st ->
  doPost h (env_Do env (calls st)) urlPath request (slot st) = (Some err, slot') ->
  attempt st <= maxRetries h ->
  rand_Int64N (env_rand env (calls st)) (maxRetryJitter h) = Some jitter ->
  retry_delay h (attempt st) jitter = Some delay ->
  let entered := now st + Z.max 0 (env_elapsed env (calls st)) in
  cancel_at ctx = Some c ->
  entered <= c < entered + delay ->
  (n < fuel)%nat ->
  Post fuel h env ctx start endpoint request response =
    Some (Return (Some (Errorf "context canceled"))
            {| attempt := attempt st; calls := S n; now := c;
               slot := slot' |}).
Proof.
  intros Hurl Hreach Hpost Hretry Hjit Hdelay entered Hctx Hduring Hfuel.
  unfold Post. rewrite Hurl.
  replace fuel with (n + S (fuel - S n))%nat by lia.
  rewrite (Post_loop_reach h env ctx urlPath request n _ st _ Hreach).
  pose proof (reach_calls h env ctx urlPath request n _ st Hreach) as Hcalls.
  cbn [calls Nat.add] in Hcalls.
  cbn [Post_loop]. unfold Post_iter. rewrite Hpost.
  destruct (maxRetries h <? attempt st) eqn:E; [lia|].
  rewrite Hjit, Hdelay. cbn [now].
  rewrite (select_wait_cancelled_first ctx _ delay _ c Hctx Hduring).
  now rewrite Hcalls.
Qed.

End HttpCancellation.

Section HttpExamples.
Import Http Sample.
Local Open Scope Z_scope.

(** The default client against an endpoint that always fails makes 7
    attempts for [maxRetries = 5]. *)
Lemma Post_always_failing_attempts_witness :
  exists err st,
    Post 7 (NewHttpClient "http://gateway" "") refusing never_cancelled 0
      "get_login_info" None None =
      Some (Return (Some (Errorf_w "max retries exceeded" err)) st) /\
    calls st = 7%nat /\ attempt st = 6.
Proof.
  apply (Post_always_failing_attempts (NewHttpClient "http://gateway" "")
           refusing never_cancelled 0 "get_login_info"
           "http://gateway/get_login_info" None None 7).
  - reflexivity.
  - intros k slot. cbn. discriminate.
  - reflexivity.
  - cbn. unfold MaxInt64. lia.
  - reflexivity.
  - cbn. lia.
Defined.

(** A 200 response whose envelope and data decode fills the slot. *)
Lemma doPost_status_and_envelope_witness :
  doPost (NewHttpClient "http://gateway" "")
    (fun _ => DoResponse 200 (String.list_byte_of_string "{}") None)
    "http://gateway/get_login_info" None (Some []) =
    (None, Some (String.list_byte_of_string "{}")).
Proof.
  refine (proj1 (proj2 (proj2 (proj2
    (doPost_status_and_envelope (NewHttpClient "http://gateway" "")
       (fun _ => DoResponse 200 (String.list_byte_of_string "{}") None)
       "http://gateway/get_login_info" None (Some []))
    [] 200 (String.list_byte_of_string "{}") eq_refl eq_refl eq_refl)
    ltac:(lia))) [] _ _ eq_refl ltac:(lia) eq_refl eq_refl).
Defined.

(** The context is cancelled at 500 ms, during the wait that follows the
    third failed attempt (from 303 ms, for 400 ms). *)
Lemma Post_cancelled_during_backoff_witness :
  Post 10 (NewHttpClient "http://gateway" "") refusing
    {| cancel_at := Some (500 * Millisecond) |} 0
    "get_login_info" None None =
    Some (Return (Some (Errorf "context canceled"))
            {| attempt := 2; calls := 3; now := 500 * Millisecond;
               slot := None |}).
Proof.
  apply (Post_cancelled_during_backoff (NewHttpClient "http://gateway" "")
           refusing {| cancel_at := Some (500 * Millisecond) |} 0
           "get_login_info" "http://gateway/get_login_info" None None
           2 10
           {| attempt := 2; calls := 2; now := 302 * Millisecond;
              slot := None |}
           (Errorf_w "request failed" (lib_error "connection refused"))
           None 0 (400 * Millisecond) (500 * Millisecond)).
  - reflexivity.
  - vm_compute. reflexivity.
  - reflexivity.
  - cbn. lia.
  - reflexivity.
  - vm_compute. reflexivity.
  - reflexivity.
  - split; [vm_compute; discriminate | vm_compute; reflexivity].
  - lia.
Defined.

End HttpExamples.

Section HttpOverflowExample.
Import Http Sample.
Local Open Scope Z_scope.

(** The client with 40 retries against an endpoint that always fails
    does enter the turn with counter 37. *)
Lemma Post_reaches_attempt_37 :
  exists st,
    reach 37 forty_retries
      refusing never_cancelled "http://gateway/get_login_info" None
      {| attempt := 0; calls := O; now := 0; slot := None |} = Some st /\
    attempt st = 37 /\ calls st = 37%nat.
Proof. eexists. split; [vm_compute; reflexivity | split; reflexivity]. Qed.

End HttpOverflowExample.

Section HttpPanics.
Import Http.
Local Open Scope Z_scope.
Context {Req Resp : Type} `{!Codec Req Resp}.

(** A client whose [maxRetryJitter] is not positive panics in
    [rand.Int64N] at the first failed attempt that is to be retried. *)
Lemma Post_iter_panics_without_jitter h env ctx urlPath request
    (st : Loop (Resp := Resp)) err slot' :
  doPost h (env_Do env (calls st)) urlPath request (slot st) = (Some err, slot') ->
  attempt st <= maxRetries h ->
  maxRetryJitter h <= 0 ->
  exists st', Post_iter h env ctx urlPath request st =
                Panic "invalid argument to Int64N" st'.
Proof.
  intros Hpost Hretry Hjit. unfold Post_iter. rewrite Hpost.
  destruct (maxRetries h <? attempt st) eqn:E; [lia|].
  unfold rand_Int64N. destruct (maxRetryJitter h <=? 0) eqn:E'; [|lia].
  eexists. reflexivity.
Qed.

End HttpPanics.

(** * Further properties *)

(** ** Life cycle of the streaming connection *)

Section WsLifecycle.
Import Ws Lifecycle.

Lemma close_chan_Some c cs cs' :
  close_chan c cs = Some cs' ->
  exists c', c = Some c' /\ (c' ∉ closed cs) /\
    cs' = {| closed := {[c']} ∪ closed cs; sending := sending cs;
             next_chan := next_chan cs |}.
Proof.
  unfold close_chan. destruct c as [c'|]; [|discriminate].
  destruct (decide (c' ∈ closed cs)); [discriminate|].
  intros [= <-]. now exists c'.
Qed.

Lemma close_chan_open c cs :
  c ∉ closed cs ->
  close_chan (Some c) cs =
    Some {| closed := {[c]} ∪ closed cs; sending := sending cs;
            next_chan := next_chan cs |}.
Proof.
  intros Hc. unfold close_chan.
  destruct (decide (c ∈ closed cs)); [contradiction | reflexivity].
Qed.

(** What a [Close] that returns has done to an open source. *)
Lemma Close_open_inv conn_Close wd conn res wd' :
  wsConn (source wd) = Some conn ->
  Close conn_Close wd = Ok res wd' ->
  (exists err, res = Some err /\ conn_Close conn = Some err /\ wd' = wd) \/
  (res = None /\ conn_Close conn = None /\
   exists ec cc,
     eventChan (source wd) = Some ec /\ closeChan (source wd) = Some cc /\
     (ec ∉ closed (chans wd)) /\ (cc ∉ closed (chans wd)) /\ ec <> cc /\
     wd' = {| source := {| wsGateway := wsGateway (source wd);
                           accessToken := accessToken (source wd);
                           wsConn := None;
                           eventChan := Some ec; closeChan := Some cc |};
              chans := {| closed := {[cc]} ∪ ({[ec]} ∪ closed (chans wd));
                          sending := sending (chans wd);
                          next_chan := next_chan (chans wd) |};
              receivers := receivers wd |}).
Proof.
  intros Hopen. unfold Close. rewrite Hopen.
  destruct (conn_Close conn) as [err|] eqn:Hc.
  - intros [= <- <-]. left. now exists err.
  - destruct (close_chan (eventChan (source wd)) (chans wd)) as [cs1|] eqn:H1;
      [|discriminate].
    destruct (close_chan (closeChan (source wd)) cs1) as [cs2|] eqn:H2;
      [|discriminate].
    intros [= <- <-]. right. split; [reflexivity|]. split; [reflexivity|].
    apply close_chan_Some in H1 as (ec & Hec & Hecn & ->).
    apply close_chan_Some in H2 as (cc & Hcc & Hccn & ->).
    cbn in Hccn. rewrite elem_of_union, elem_of_singleton in Hccn.
    exists ec, cc. rewrite Hec, Hcc.
    repeat split; try assumption; intuition congruence.
Qed.

Lemma Open_closed_success Dial wd conn :
  wsConn (source wd) = None ->
  (forall gateway header, Dial gateway header = inr conn) ->
  Open Dial wd =
    ((Some (next_chan (chans wd)), None),
     {| source := {| wsGateway := wsGateway (source wd);
                     accessToken := accessToken (source wd);
                     wsConn := Some conn;
                     eventChan := Some (next_chan (chans wd));
                     closeChan := Some (S (next_chan (chans wd))) |};
        chans := {| closed := closed (chans wd);
                    sending := sending (chans wd);
                    next_chan := S (S (next_chan (chans wd))) |};
        receivers := receivers wd ++
          [{| rc_wsConn := conn; rc_eventChan := next_chan (chans wd);
              rc_closeChan := S (next_chan (chans wd)) |}] |}).
Proof.
  intros Hclosed HDial. unfold Open. now rewrite Hclosed, HDial.
Qed.

Lemma Close_open_success conn_Close wd conn ec cc :
  wsConn (source wd) = Some conn ->
  conn_Close conn = None ->
  eventChan (source wd) = Some ec ->
  closeChan (source wd) = Some cc ->
  ec ∉ closed (chans wd) -> cc ∉ closed (chans wd) -> ec <> cc ->
  Close conn_Close wd =
    Ok None
      {| source := {| wsGateway := wsGateway (source wd);
                      accessToken := accessToken (source wd);
                      wsConn := None;
                      eventChan := Some ec; closeChan := Some cc |};
         chans := {| closed := {[cc]} ∪ ({[ec]} ∪ closed (chans wd));
                     sending := sending (chans wd);
                     next_chan := next_chan (chans wd) |};
         receivers := receivers wd |}.
Proof.
  intros Hconn Hc Hec Hcc Hecn Hccn Hne. unfold Close.
  rewrite Hconn, Hc, Hec, Hcc, (close_chan_open ec _ Hecn).
  rewrite close_chan_open; [reflexivity|]. cbn.
  rewrite elem_of_union, elem_of_singleton. intuition congruence.
Qed.

Lemma Open_well_formed Dial wd :
  well_formed wd -> well_formed (snd (Open Dial wd)).
Proof.
  intros [Hclosed Hsrc]. unfold Open.
  destruct (wsConn (source wd)) as [conn|] eqn:Hconn.
  { split; cbn; [assumption|]. now rewrite Hconn. }
  destruct (Dial _ _) as [err|conn].
  { split; cbn; [assumption|]. now rewrite Hconn. }
  split; cbn.
  - intros c Hc. specialize (Hclosed c Hc). lia.
  - exists (next_chan (chans wd)), (S (next_chan (chans wd))).
    repeat split; try lia.
    + intros Hin. specialize (Hclosed _ Hin). lia.
    + intros Hin. specialize (Hclosed _ Hin). lia.
Qed.

Lemma Close_well_formed conn_Close wd res wd' :
  well_formed wd -> Close conn_Close wd = Ok res wd' -> well_formed wd'.
Proof.
  intros Hwf HClose.
  destruct (wsConn (source wd)) as [conn|] eqn:Hconn.
  - destruct (Close_open_inv conn_Close wd conn res wd' Hconn HClose)
      as [(err & _ & _ & ->) | (_ & _ & ec & cc & Hec & Hcc & _ & _ & _ & ->)];
      [assumption|].
    destruct Hwf as [Hclosed Hsrc]. rewrite Hconn in Hsrc.
    destruct Hsrc as (ec' & cc' & Hec' & Hcc' & _ & _ & _ & Hlt1 & Hlt2).
    rewrite Hec in Hec'. rewrite Hcc in Hcc'.
    injection Hec' as <-. injection Hcc' as <-.
    split; [|exact I]. cbn. intros c Hc.
    apply elem_of_union in Hc as [Hc | Hc];
      [apply elem_of_singleton in Hc; now subst|].
    apply elem_of_union in Hc as [Hc | Hc];
      [apply elem_of_singleton in Hc; now subst|].
    now apply Hclosed.
  - unfold Close in HClose. rewrite Hconn in HClose.
    now injection HClose as <- <-.
Qed.

Lemma reachable_well_formed wd : reachable wd -> well_formed wd.
Proof.
  intros Hreach.
  induction Hreach as [gw tok cs Hcs | Dial wd _ IH | f wd res wd' _ IH HClose].
  - split; [exact Hcs | exact I].
  - now apply Open_well_formed.
  - now apply (Close_well_formed f wd res wd').
Qed.

Lemma Close_well_formed_returns conn_Close wd :
  well_formed wd -> exists res wd', Close conn_Close wd = Ok res wd'.
Proof.
  intros [Hclosed Hsrc]. unfold Close.
  destruct (wsConn (source wd)) as [conn|]; [|now eexists _, _].
  destruct Hsrc as (ec & cc & Hec & Hcc & Hne & Hecn & Hccn & _ & _).
  destruct (conn_Close conn); [now eexists _, _|].
  rewrite Hec, Hcc, (close_chan_open ec _ Hecn).
  rewrite close_chan_open; [now eexists _, _|].
  cbn. rewrite elem_of_union, elem_of_singleton. intuition congruence.
Qed.

(** However a source has been opened and closed before, [Close] returns:
    it never closes the nil channel or a channel twice. *)
Theorem Close_never_panics (wd : World) (conn_Close : Conn -> option error) :
  reachable wd ->
  exists res wd', Close conn_Close wd = Ok res wd'.
Proof.
  intros Hreach. apply Close_well_formed_returns.
  now apply reachable_well_formed.
Qed.

(** [Close] is idempotent: after a [Close] that returned nil, a further
    [Close] returns nil and changes nothing, whatever the connection
    would answer. *)
Theorem Close_twice (wd wd' : World) (f g : Conn -> option error) :
  Close f wd = Ok None wd' ->
  Close g wd' = Ok None wd'.
Proof.
  intros HClose.
  destruct (wsConn (source wd)) as [conn|] eqn:Hconn.
  - destruct (Close_open_inv f wd conn None wd' Hconn HClose)
      as [(err & Herr & _) | (_ & _ & ec & cc & _ & _ & _ & _ & _ & ->)];
      [discriminate | reflexivity].
  - unfold Close in HClose. rewrite Hconn in HClose.
    injection HClose as <-. unfold Close. now rewrite Hconn.
Qed.

(** An [Open] that returns an error (already connected, or the dial
    failed) returns no channel and leaves the source, the channels and
    the goroutines as they were. *)
Theorem Open_error_changes_nothing
    (Dial : string -> list (string * string) -> error + Conn)
    (wd wd' : World) (c : option chan) (err : error) :
  Open Dial wd = ((c, Some err), wd') ->
  c = None /\ wd' = wd.
Proof.
  unfold Open. destruct (wsConn (source wd)); [now intros [= <- _ <-]|].
  destruct (Dial _ _); [now intros [= <- _ <-] | discriminate].
Qed.

(** When the connection's own [Close] fails, [Close] passes the error on
    and the source stays connected: nothing is closed, and a following
    [Open] is refused as already connected. *)
Theorem Close_error_keeps_connection (wd : World) (conn : Conn)
    (conn_Close : Conn -> option error) (err : error)
    (Dial : string -> list (string * string) -> error + Conn) :
  wsConn (source wd) = Some conn ->
  conn_Close conn = Some err ->
  Close conn_Close wd = Ok (Some err) wd /\
  Open Dial wd = ((None, Some ErrAlreadyConnected), wd).
Proof.
  intros Hconn Herr. unfold Close, Open. now rewrite Hconn, Herr.
Qed.

(** Closed, open, closed, open again: a source that is closed can be
    opened, closed and opened again; the second [Open] hands out new
    channels, both open, while the event channel of the first connection
    is closed, and each [Open] has started one receive goroutine on its
    own connection and channels. *)
Theorem reopen_after_Close (wd0 : World) (c1 c2 : Conn)
    (D1 D2 : string -> list (string * string) -> error + Conn)
    (conn_Close : Conn -> option error) :
  reachable wd0 ->
  wsConn (source wd0) = None ->
  (forall gateway header, D1 gateway header = inr c1) ->
  (forall gateway header, D2 gateway header = inr c2) ->
  conn_Close c1 = None ->
  exists ec1 cc1 wd1 wd2 ec2 cc2 wd3,
    Open D1 wd0 = ((Some ec1, None), wd1) /\
    Close conn_Close wd1 = Ok None wd2 /\
    Open D2 wd2 = ((Some ec2, None), wd3) /\
    wsConn (source wd3) = Some c2 /\
    eventChan (source wd3) = Some ec2 /\
    closeChan (source wd3) = Some cc2 /\
    ec2 <> ec1 /\ ec2 <> cc1 /\ cc2 <> ec1 /\ cc2 <> cc1 /\
    (ec1 ∈ closed (chans wd3)) /\ (cc1 ∈ closed (chans wd3)) /\
    (ec2 ∉ closed (chans wd3)) /\ (cc2 ∉ closed (chans wd3)) /\
    receivers wd3 =
      receivers wd0 ++
      [{| rc_wsConn := c1; rc_eventChan := ec1; rc_closeChan := cc1 |};
       {| rc_wsConn := c2; rc_eventChan := ec2; rc_closeChan := cc2 |}].
Proof.
  intros Hreach Hclosed HD1 HD2 Hc1.
  pose proof (reachable_well_formed wd0 Hreach) as [Hlt _].
  set (n := next_chan (chans wd0)).
  assert (Hfresh : forall k, (n + k)%nat ∉ closed (chans wd0)).
  { intros k Hin. specialize (Hlt _ Hin). subst n. lia. }
  pose proof (Hfresh 0%nat) as Hn. rewrite Nat.add_0_r in Hn.
  pose proof (Hfresh 1%nat) as HSn. rewrite Nat.add_1_r in HSn.
  pose proof (Hfresh 2%nat) as H2n. rewrite Nat.add_comm in H2n.
  pose proof (Hfresh 3%nat) as H3n. rewrite Nat.add_comm in H3n.
  cbn [Nat.add] in H2n, H3n.
  exists n, (S n). eexists. eexists. exists (S (S n)), (S (S (S n))). eexists.
  split; [apply (Open_closed_success D1 wd0 c1 Hclosed HD1)|].
  split.
  { apply (Close_open_success conn_Close _ c1 n (S n));
      cbn; try reflexivity; try assumption. lia. }
  split; [eapply Open_closed_success; [reflexivity | exact HD2]|].
  cbn. rewrite <- app_assoc. cbn.
  repeat split; try lia;
    rewrite !elem_of_union, !elem_of_singleton; intuition lia.
Qed.

(** After a [Close] of an open source that returned nil, [Wait] returns:
    the close channel is closed. *)
Theorem Wait_after_Close (wd wd' : World) (conn : Conn)
    (conn_Close : Conn -> option error) :
  wsConn (source wd) = Some conn ->
  Close conn_Close wd = Ok None wd' ->
  Wait wd' = Proceeds.
Proof.
  intros Hconn HClose.
  destruct (Close_open_inv conn_Close wd conn None wd' Hconn HClose)
    as [(err & Herr & _) | (_ & _ & ec & cc & _ & _ & _ & _ & _ & ->)];
    [discriminate|].
  unfold Wait, receive_from. cbn.
  destruct (decide (cc ∈ {[cc]} ∪ ({[ec]} ∪ closed (chans wd)))) as [|Hn];
    [reflexivity|].
  exfalso. apply Hn. apply elem_of_union. left. now apply elem_of_singleton.
Qed.

End WsLifecycle.

(** ** The receive activity *)

Section WsReceive.
Import Ws Lifecycle.
Context `{!Decoders}.

(** Once another goroutine has closed the source, a read error makes the
    receive activity exit in silence: it logs nothing, sends nothing and
    does not close anything a second time. *)
Theorem receive_exits_silently_when_superseded (wd wd' : World)
    (r : Receiver) (conn_Close : Conn -> option error) (err : error) :
  wsConn (source wd) = Some (rc_wsConn r) ->
  Close conn_Close wd = Ok None wd' ->
  receive conn_Close r [Close_elsewhere; ReadError err] wd = ([], Exit wd').
Proof.
  intros Hconn HClose. cbn [receive receive_turn]. rewrite HClose.
  destruct (Close_open_inv conn_Close wd (rc_wsConn r) None wd' Hconn HClose)
    as [(e & He & _) | (_ & _ & ec & cc & _ & _ & _ & _ & _ & ->)];
    [discriminate|].
  cbn. destruct (decide (None = Some (rc_wsConn r))); [discriminate|].
  reflexivity.
Qed.

(** A read error on the connection that is still the current one is
    logged and the source is closed: the activity sends nothing and
    exits, and when the connection closed without an error the handle
    is nil afterwards and the waiters are released. *)
Theorem receive_read_error_closes (wd : World) (r : Receiver)
    (conn_Close : Conn -> option error) (err : error) :
  reachable wd ->
  wsConn (source wd) = Some (rc_wsConn r) ->
  exists res wd',
    Close conn_Close wd = Ok res wd' /\
    receive_turn conn_Close r (ReadError err) wd =
      (Logf "ERROR" "Error when reading message: %v" ::
       log_if res "Failed to close websocket connection: %v",
       Exit wd') /\
    (conn_Close (rc_wsConn r) = None ->
     res = None /\ wsConn (source wd') = None /\ Wait wd' = Proceeds).
Proof.
  intros Hreach Hconn.
  destruct (Close_well_formed_returns conn_Close wd
              (reachable_well_formed wd Hreach)) as (res & wd' & HClose).
  exists res, wd'. split; [exact HClose|]. split.
  - unfold receive_turn. rewrite HClose.
    destruct (decide (wsConn (source wd) = Some (rc_wsConn r)));
      [reflexivity | contradiction].
  - intros Hok.
    destruct (Close_open_inv conn_Close wd (rc_wsConn r) res wd' Hconn HClose)
      as [(e & _ & He & _) | (-> & _ & ec & cc & _ & _ & _ & _ & _ & ->)];
      [congruence|].
    split; [reflexivity|]. split; [reflexivity|].
    unfold Wait, receive_from. cbn.
    destruct (decide (cc ∈ {[cc]} ∪ ({[ec]} ∪ closed (chans wd)))) as [|Hn];
      [reflexivity|].
    exfalso. apply Hn. apply elem_of_union. left. now apply elem_of_singleton.
Qed.

(** A binary frame that [zlib.NewReader] rejects crashes the receive
    activity: the error is logged, and reading from the nil reader that
    was returned with it panics before anything is decoded or sent. *)
Theorem receive_rejected_binary_frame_crashes (wd : World) (r : Receiver)
    (conn_Close : Conn -> option error) (message : bytes) (err : error) :
  zlib_NewReader message = Some err ->
  receive_turn conn_Close r (Message BinaryMessage message) wd =
    ([Logf "ERROR" "Failed to decompress message: %v"],
     Crash "nil pointer dereference" wd).
Proof.
  intros Hzlib. unfold receive_turn.
  change (BinaryMessage =? BinaryMessage)%Z with true. cbn iota.
  unfold decompress. now rewrite Hzlib.
Qed.

(** A binary frame that decompresses without an error is handled exactly
    as the text frame that carries the decompressed bytes: the same log
    lines, the same event sent, the same continuation. *)
Theorem receive_binary_as_text (wd : World) (r : Receiver)
    (conn_Close : Conn -> option error) (message payload : bytes) :
  zlib_NewReader message = None ->
  io_ReadAll message = (payload, None) ->
  zlib_Close message = None ->
  receive_turn conn_Close r (Message BinaryMessage message) wd =
    receive_turn conn_Close r (Message TextMessage payload) wd.
Proof.
  intros Hnew Hread Hclose. unfold receive_turn.
  change (BinaryMessage =? BinaryMessage)%Z with true.
  change (TextMessage =? BinaryMessage)%Z with false. cbn iota.
  unfold decompress. now rewrite Hnew, Hread, Hclose.
Qed.

(** Frames become events in the order they were read, one event for each
    frame, also for the frames that failed to decode: while the two
    channels of the activity stay open, the events sent for a run of
    text frames are what [json.Unmarshal] made of each frame, in order,
    and the activity goes on reading. *)
Theorem receive_keeps_frame_order (wd : World) (r : Receiver)
    (conn_Close : Conn -> option error) (messages : list bytes) :
  rc_eventChan r ∉ closed (chans wd) ->
  rc_closeChan r ∉ closed (chans wd) ->
  snd (receive conn_Close r (map (Message TextMessage) messages) wd)
    = Next wd /\
  sent (fst (receive conn_Close r (map (Message TextMessage) messages) wd))
    = map (fun message => fst (json_Unmarshal_RawEvent message RawEvent_zero))
          messages.
Proof.
  intros Hev Hcl. induction messages as [|message messages [IHt IHs]].
  - split; reflexivity.
  - cbn [map receive].
    destruct (json_Unmarshal_RawEvent message RawEvent_zero)
      as [rawEvent err] eqn:Hdec.
    rewrite (receive_turn_text conn_Close r message wd rawEvent err Hdec Hev).
    destruct (decide (rc_closeChan r ∈ closed (chans wd))); [contradiction|].
    destruct (receive conn_Close r (map (Message TextMessage) messages) wd)
      as [effs t].
    cbn [fst snd] in *. split; [exact IHt|].
    rewrite <- app_assoc. cbn [fst].
    destruct err; cbn; now rewrite IHs.
Qed.

(** Closing is not safe against a frame in flight: once [Close] has
    closed the event channel, the send of a frame the activity had
    already read panics. *)
Theorem receive_send_after_Close_panics (wd wd' : World) (r : Receiver)
    (conn_Close : Conn -> option error) (conn : Conn) (message : bytes) :
  wsConn (source wd) = Some conn ->
  eventChan (source wd) = Some (rc_eventChan r) ->
  Close conn_Close wd = Ok None wd' ->
  exists effs,
    receive_turn conn_Close r (Message TextMessage message) wd' =
      (effs, Crash "send on closed channel" wd') /\
    sent effs = [].
Proof.
  intros Hconn Hec HClose.
  destruct (Close_open_inv conn_Close wd conn None wd' Hconn HClose)
    as [(e & He & _) | (_ & _ & ec & cc & Hec' & _ & _ & _ & _ & ->)];
    [discriminate|].
  rewrite Hec in Hec'. injection Hec' as <-.
  unfold receive_turn.
  change (TextMessage =? BinaryMessage)%Z with false. cbn iota.
  destruct (json_Unmarshal_RawEvent message RawEvent_zero) as [rawEvent err].
  cbn [chans closed].
  destruct (decide (rc_eventChan r ∈
              {[cc]} ∪ ({[rc_eventChan r]} ∪ closed (chans wd)))) as [_|Hn].
  - eexists. split; [reflexivity|]. destruct err; reflexivity.
  - exfalso. apply Hn. apply elem_of_union. right. apply elem_of_union. left.
    now apply elem_of_singleton.
Qed.

End WsReceive.

(** ** Registries and the dispatch loop *)

Section DispatchMore.
Import Dispatch.
Context {Event : Type} `{!Events Event}.
Variable run : EventHandler -> nat -> RawEvent -> World (Event := Event)
                 -> World (Event := Event).

(** An event whose type is unknown, or known with no handler list under
    the type of its prototype, costs one log line and nothing else: no
    handler is called, no object is allocated, and the loop handles the
    events after it from the world as it was. *)
Theorem handleEvent_skips_and_goes_on (wd : World (Event := Event))
    (rawEvent : RawEvent) (rest : list RawEvent) :
  eventRegistries (bot wd) !! raw_Type rawEvent = None \/
  (exists eventRegistry,
     eventRegistries (bot wd) !! raw_Type rawEvent = Some eventRegistry /\
     eventHandlers (bot wd) !! Event_Type eventRegistry = None) ->
  exists line,
    (line = Logf "WARN" "Unknown event type: %s" \/
     line = Logf "TRACE" "No handler registered for event: %s") /\
    handleEvent_loop run (rawEvent :: rest) wd =
      (line :: fst (handleEvent_loop run rest wd),
       snd (handleEvent_loop run rest wd)).
Proof.
  intros [Hnone | (eventRegistry & Hreg & Hnone)].
  - exists (Logf "WARN" "Unknown event type: %s"). split; [now left|].
    cbn [handleEvent_loop]. unfold handleEvent_turn. rewrite Hnone.
    now destruct (handleEvent_loop run rest wd).
  - exists (Logf "TRACE" "No handler registered for event: %s").
    split; [now right|].
    cbn [handleEvent_loop]. unfold handleEvent_turn. rewrite Hreg, Hnone.
    now destruct (handleEvent_loop run rest wd).
Qed.

Lemma invoke_all_In handlers event rawEvent wd e :
  In e (fst (invoke_all run handlers event rawEvent wd)) ->
  exists handler, In handler handlers /\ e = Invoke handler event rawEvent.
Proof.
  rewrite invoke_all_effects. intros Hin.
  apply in_map_iff in Hin as (handler & <- & Hin). now exists handler.
Qed.

Lemma HandleAll_NewBot_In handlers T mine handler :
  eventHandlers (HandleAll handlers (NewBot (Event := Event))) !! T
    = Some mine ->
  In handler mine -> In handler handlers /\ handler_Type handler = T.
Proof.
  rewrite HandleAll_NewBot. intros Hmine Hin.
  assert (mine = of_type T handlers) as ->.
  { destruct (of_type T handlers); [discriminate | congruence]. }
  unfold of_type in Hin. apply list_elem_of_In in Hin.
  apply list_elem_of_filter in Hin as [Htype Hin].
  split; [now apply list_elem_of_In | exact Htype].
Qed.

(** The dispatcher never calls a handler out of place: whenever a turn
    calls a handler, the handler was registered by [Handle], the type it
    declares is the type the registered prototype of the event reports,
    and it is handed this very event and the object allocated for it. *)
Theorem handleEvent_calls_only_matching_handlers
    (wd : World (Event := Event)) (rawEvent rawEvent' : RawEvent)
    (registered : list EventHandler) (handler : EventHandler) (event : nat) :
  eventHandlers (bot wd) =
    eventHandlers (HandleAll registered (NewBot (Event := Event))) ->
  In (Invoke handler event rawEvent')
     (fst (handleEvent_turn run rawEvent wd)) ->
  In handler registered /\
  rawEvent' = rawEvent /\
  event = length (heap wd) /\
  exists eventRegistry,
    eventRegistries (bot wd) !! raw_Type rawEvent = Some eventRegistry /\
    handler_Type handler = Event_Type eventRegistry.
Proof.
  intros Hhandlers. unfold handleEvent_turn.
  destruct (eventRegistries (bot wd) !! raw_Type rawEvent)
    as [eventRegistry|]; [|intros [Hin | []]; discriminate].
  destruct (eventHandlers (bot wd) !! Event_Type eventRegistry)
    as [handlers|] eqn:Hlist; [|intros [Hin | []]; discriminate].
  destruct (new_decoded eventRegistry rawEvent wd) as [[err|] wd1];
    [intros [Hin | []]; discriminate|].
  intros Hin. apply invoke_all_In in Hin as (h & Hh & Heq).
  injection Heq as -> -> ->.
  rewrite Hhandlers in Hlist.
  destruct (HandleAll_NewBot_In registered _ handlers h Hlist Hh)
    as [Hreg Htype].
  split; [exact Hreg|]. split; [reflexivity|]. split; [reflexivity|].
  now exists eventRegistry.
Qed.

(** Registration order matters within a type only: two [Handle] calls
    for handlers of different types can be swapped, and [Handle] and
    [SetEventRegistry] can always be swapped. *)
Theorem Handle_commutes (b : Bot (Event := Event))
    (first second : EventHandler) (eventType : string) (event : Event) :
  handler_Type first <> handler_Type second ->
  Handle first (Handle second b) = Handle second (Handle first b) /\
  SetEventRegistry eventType event (Handle first b) =
    Handle first (SetEventRegistry eventType event b).
Proof.
  intros Hne. split; [|reflexivity].
  unfold Handle. cbn. f_equal.
  rewrite !lookup_insert_ne by congruence.
  apply insert_insert_ne. congruence.
Qed.


(** [Bot.Open] passes an error of the event source on and changes
    nothing; on success it keeps the registries, makes a new close
    channel and starts the dispatch loop on the channel of the source,
    so that [Wait] blocks until the loop has ended. *)
Theorem Bot_Open_starts_dispatch (wd : World (Event := Event))
    (opened : option chan * option error) :
  (forall err, snd opened = Some err -> Open opened wd = (Some err, wd, None)) /\
  (snd opened = None ->
   exists wd1,
     Open opened wd = (None, wd1, Some (fst opened)) /\
     eventRegistries (bot wd1) = eventRegistries (bot wd) /\
     eventHandlers (bot wd1) = eventHandlers (bot wd) /\
     closeChan (bot wd1) = Some (next_chan (chans wd)) /\
     heap wd1 = heap wd /\
     (next_chan (chans wd) ∉ closed (chans wd) ->
      next_chan (chans wd) ∉ sending (chans wd) ->
      Wait wd1 = Blocks_until_ready)).
Proof.
  split.
  - intros err Herr. unfold Open. now rewrite Herr.
  - intros Hok. unfold Open. rewrite Hok. cbn. eexists.
    split; [reflexivity|]. cbn.
    repeat split.
    intros Hcl Hse. unfold Wait, receive_from. cbn.
    destruct (decide (next_chan (chans wd) ∈ closed (chans wd)));
      [contradiction|].
    destruct (decide (next_chan (chans wd) ∈ sending (chans wd)));
      [contradiction | reflexivity].
Qed.

End DispatchMore.

(** ** Attempts and delays of the command client *)

Section HttpDelay.
Import Http.
Local Open Scope Z_scope.

(** The delay never exceeds [maxRetryDelay], overflow or not.  With a
    base delay and a jitter that are not negative and a sum that fits 64
    bits it is at least the smaller of the base delay and the cap, and a
    later attempt never waits less than an earlier one for the same
    jitter. *)
Theorem retry_delay_bounds (h : HttpClient) (attempt jitter delay : Z) :
  retry_delay h attempt jitter = Some delay ->
  delay <= maxRetryDelay h /\
  (0 <= baseRetryDelay h -> 0 <= jitter ->
   baseRetryDelay h * 2 ^ attempt + jitter <= MaxInt64 ->
   Z.min (baseRetryDelay h) (maxRetryDelay h) <= delay /\
   forall earlier delay',
     0 <= earlier <= attempt ->
     retry_delay h earlier jitter = Some delay' ->
     delay' <= delay).
Proof.
  intros Hdelay.
  assert (Ha : 0 <= attempt).
  { unfold retry_delay, shl64 in Hdelay.
    destruct (attempt <? 0) eqn:E; [discriminate | lia]. }
  split.
  { rewrite retry_delay_wrap in Hdelay by assumption.
    injection Hdelay as <-. apply Z.le_min_r. }
  intros Hbase Hjit Hfit.
  assert (Hpow : forall a b, 0 <= a <= b -> 1 <= 2 ^ a <= 2 ^ b).
  { intros a b [H0 Hab].
    pose proof (Z.pow_pos_nonneg 2 a ltac:(lia) H0).
    split; [lia | apply Z.pow_le_mono_r; lia]. }
  assert (Hin : forall a, 0 <= a <= attempt ->
            retry_delay h a jitter =
              Some (Z.min (maxRetryDelay h) (baseRetryDelay h * 2 ^ a + jitter))).
  { intros a Hrange. apply retry_delay_in_range; [lia|].
    pose proof (Hpow a attempt Hrange). unfold MinInt64, MaxInt64 in *. nia. }
  rewrite (Hin attempt) in Hdelay by lia. injection Hdelay as <-.
  split.
  { pose proof (Hpow 0 attempt ltac:(lia)). nia. }
  intros earlier delay' Hrange Hearlier.
  rewrite (Hin earlier Hrange) in Hearlier. injection Hearlier as <-.
  pose proof (Hpow earlier attempt Hrange). nia.
Qed.

End HttpDelay.

Section HttpAttempts.
Import Http Api.
Local Open Scope Z_scope.
Context {Req Resp : Type} `{!Codec Req Resp}.









Lemma select_wait_cancelled_before ctx now delay pick c :
  cancel_at ctx = Some c -> c <= now -> 0 < delay ->
  select_wait ctx now delay pick = (case_Done, now).
Proof.
  intros Hctx Hc Hpos. unfold select_wait. rewrite Hctx.
  rewrite (Z.max_l now c) by lia.
  destruct (now <? now + Z.max 0 delay) eqn:E; [reflexivity | lia].
Qed.

(** A context that is cancelled before [Post] is called does not stop
    the first attempt: [Post] makes it, and when it fails with a retry
    due and a positive delay, returns the cancellation error at once,
    without waiting. *)
Theorem Post_already_cancelled (h : HttpClient) (env : Env)
    (ctx : Context_) (start : Z) (endpoint urlPath : string)
    (request : option Req) (response slot' : option Resp)
    (err : error) (jitter delay c : Z) (fuel : nat) :
  url_JoinPath (restGateway h) endpoint = (urlPath, None) ->
  cancel_at ctx = Some c -> c <= start ->
  doPost h (env_Do env O) urlPath request response = (Some err, slot') ->
  0 <= maxRetries h ->
  rand_Int64N (env_rand env O) (maxRetryJitter h) = Some jitter ->
  retry_delay h 0 jitter = Some delay ->
  0 < delay ->
  (0 < fuel)%nat ->
  Post fuel h env ctx start endpoint request response =
    Some (Return (Some (Errorf "context canceled"))
            {| attempt := 0; calls := 1;
               now := start + Z.max 0 (env_elapsed env O);
               slot := slot' |}).
Proof.
  intros Hurl Hctx Hc Hpost Hretry Hjit Hdelay Hpos Hfuel.
  unfold Post. rewrite Hurl. destruct fuel as [|fuel]; [lia|].
  cbn [Post_loop]. unfold Post_iter. cbn [calls slot attempt now].
  rewrite Hpost.
  destruct (maxRetries h <? 0) eqn:E; [lia|].
  rewrite Hjit, Hdelay.
  rewrite (select_wait_cancelled_before ctx _ delay _ c Hctx) by lia.
  reflexivity.
Qed.

End HttpAttempts.

(** ** One attempt, and the API methods *)

Section HttpExchange.
Import Http Api.
Local Open Scope Z_scope.
Context {Req Resp : Type} `{!Codec Req Resp}.

(** When the request cannot be marshalled or the HTTP request cannot be
    created, the attempt fails without any exchange with the gateway
    (the result does not depend on what the gateway would do) and leaves
    the response slot as it was. *)
Theorem doPost_local_failure_sends_nothing (h : HttpClient)
    (Do Do' : Request -> DoResult) (urlPath : string)
    (request : option Req) (response : option Resp) :
  snd (request_body request) <> None \/ http_NewRequest urlPath <> None ->
  doPost h Do urlPath request response = doPost h Do' urlPath request response /\
  exists err, doPost h Do urlPath request response = (Some err, response).
Proof.
  unfold doPost. destruct (request_body request) as [jsonBytes [err|]].
  - intros _. split; [reflexivity | now eexists].
  - destruct (http_NewRequest urlPath) as [err|].
    + intros _. split; [reflexivity | now eexists].
    + cbn. intros [Hbody | Hnew]; contradiction.
Qed.


Lemma doPost_slot_is_Some h Do urlPath request (response : option Resp) :
  is_Some (snd (doPost h Do urlPath request response)) <-> is_Some response.
Proof.
  unfold doPost.
  destruct (request_body request) as [jsonBytes [err|]]; [reflexivity|].
  destruct (http_NewRequest urlPath); [reflexivity|].
  destruct (Do (new_request h urlPath jsonBytes))
    as [err | StatusCode body [err|]]; try reflexivity.
  destruct ((StatusCode <? StatusOK) || (StatusMultipleChoices <=? StatusCode));
    [reflexivity|].
  destruct response as [slot|]; [|reflexivity].
  destruct (StatusCode =? StatusNoContent); [reflexivity|].
  destruct (json_Unmarshal_HttpResult body _) as [result [err|]];
    [reflexivity|].
  destruct (json_Unmarshal (Data result) slot) as [slot' [err|]];
    [destruct (is_EOF err)|]; cbn; split; eauto.
Qed.

(** An attempt never turns a nil response slot into a value or a value
    into nil, and it writes to the slot only after a response with a
    status in [[200, 300)] other than 204 whose envelope decoded. *)
Theorem doPost_writes_slot_only_after_envelope (h : HttpClient)
    (Do : Request -> DoResult) (urlPath : string)
    (request : option Req) (response : option Resp) :
  (is_Some (snd (doPost h Do urlPath request response)) <-> is_Some response) /\
  (snd (doPost h Do urlPath request response) <> response ->
   exists StatusCode body result slot,
     response = Some slot /\
     Do (new_request h urlPath (fst (request_body request)))
       = DoResponse StatusCode body None /\
     200 <= StatusCode < 300 /\ StatusCode <> 204 /\
     json_Unmarshal_HttpResult body {| Status := ""; Code := 0; Data := [] |}
       = (result, None) /\
     snd (doPost h Do urlPath request response)
       = Some (fst (json_Unmarshal (Data result) slot))).
Proof.
  split; [apply doPost_slot_is_Some|].
  unfold doPost.
  destruct (request_body request) as [jsonBytes [err|]]; [contradiction|].
  destruct (http_NewRequest urlPath); [contradiction|].
  cbn [fst].
  destruct (Do (new_request h urlPath jsonBytes))
    as [err | StatusCode body [err|]]; try contradiction.
  destruct ((StatusCode <? StatusOK) || (StatusMultipleChoices <=? StatusCode))
    eqn:Hstatus; [contradiction|].
  apply orb_false_elim in Hstatus as [Hlo Hhi].
  unfold StatusOK, StatusMultipleChoices, StatusNoContent in *.
  destruct response as [slot|]; [|contradiction].
  destruct (StatusCode =? 204) eqn:E204; [contradiction|].
  destruct (json_Unmarshal_HttpResult body _) as [result [err|]] eqn:Hres;
    [contradiction|].
  intros _. exists StatusCode, body, result, slot.
  split; [reflexivity|]. split; [reflexivity|].
  split; [lia|]. split; [lia|]. split; [exact Hres|].
  destruct (json_Unmarshal (Data result) slot) as [slot' [err|]];
    [destruct (is_EOF err)|]; reflexivity.
Qed.

End HttpExchange.

Section HttpApi.
Import Http Api.
Local Open Scope Z_scope.
Context {Req Resp : Type} `{!Codec Req Resp}.

Lemma Post_iter_slot h env ctx urlPath request (st : Loop (Resp := Resp)) :
  slot (final (Post_iter h env ctx urlPath request st)) =
    snd (doPost h (env_Do env (calls st)) urlPath request (slot st)).
Proof.
  unfold Post_iter.
  destruct (doPost h (env_Do env (calls st)) urlPath request (slot st))
    as [[err|] slot']; [|reflexivity].
  destruct (maxRetries h <? attempt st); [reflexivity|].
  destruct (rand_Int64N _ _); [|reflexivity].
  destruct (retry_delay _ _ _); [|reflexivity].
  destruct (select_wait _ _ _ _) as [[|] t]; reflexivity.
Qed.

Lemma Post_loop_slot_is_Some h env ctx urlPath request (fuel : nat) :
  forall (st : Loop (Resp := Resp)) step,
    Post_loop fuel h env ctx urlPath request st = Some step ->
    (is_Some (slot (final step)) <-> is_Some (slot st)).
Proof.
  induction fuel as [|fuel IH]; intros st step; [discriminate|].
  cbn [Post_loop].
  pose proof (Post_iter_slot h env ctx urlPath request st) as Hslot.
  pose proof (doPost_slot_is_Some h (env_Do env (calls st)) urlPath request
                (slot st)) as Hsome.
  rewrite <- Hslot in Hsome.
  destruct (Post_iter h env ctx urlPath request st) as [st'| |];
    [|intros [= <-]; exact Hsome..].
  intros Hloop. rewrite (IH st' step Hloop). exact Hsome.
Qed.

(** An API method returns a response exactly when it returns no error:
    never both, never neither; and the error is the one [Post] returned,
    as it is. *)
Theorem call_returns_response_or_error (h : HttpClient) (env : Env)
    (ctx : Context_) (start : Z) (endpoint : string) (request : Req)
    (zero : Resp) (fuel : nat) (resp : option Resp) (err : option error)
    (st : Loop) :
  call fuel h env ctx start endpoint request zero = Some (Ok (resp, err) st) ->
  Post fuel h env ctx start endpoint (Some request) (Some zero)
    = Some (Return err st) /\
  (is_Some resp <-> err = None).
Proof.
  unfold call.
  destruct (Post fuel h env ctx start endpoint (Some request) (Some zero))
    as [[st'|[e|] st'|msg st']|] eqn:HPost; try discriminate.
  - intros [= <- <- <-]. split; [reflexivity|].
    split; [intros [x Hx]; discriminate | discriminate].
  - intros [= <- <- <-]. split; [reflexivity|].
    split; [reflexivity|]. intros _.
    unfold Post in HPost.
    destruct (url_JoinPath (restGateway h) endpoint) as [urlPath [e|]];
      [discriminate|].
    apply Post_loop_slot_is_Some in HPost. cbn in HPost.
    apply HPost. eauto.
Qed.

(** A call that is answered at the first attempt with a status in
    [[200, 300)] other than 204, an envelope that decodes and data that
    decode into the zero value of the response type returns the decoded
    response and no error after a single exchange, without any wait. *)
Theorem call_answered_at_first_attempt (h : HttpClient) (env : Env)
    (ctx : Context_) (start : Z) (endpoint urlPath : string) (request : Req)
    (zero resp : Resp) (fuel : nat) (jsonBytes body : bytes)
    (StatusCode : Z) (result : HttpResult) :
  url_JoinPath (restGateway h) endpoint = (urlPath, None) ->
  json_Marshal request = (jsonBytes, None) ->
  http_NewRequest urlPath = None ->
  env_Do env O (new_request h urlPath jsonBytes)
    = DoResponse StatusCode body None ->
  200 <= StatusCode < 300 -> StatusCode <> 204 ->
  json_Unmarshal_HttpResult body {| Status := ""; Code := 0; Data := [] |}
    = (result, None) ->
  json_Unmarshal (Data result) zero = (resp, None) ->
  (0 < fuel)%nat ->
  call fuel h env ctx start endpoint request zero =
    Some (Ok (Some resp, None)
            {| attempt := 0; calls := 1;
               now := start + Z.max 0 (env_elapsed env O);
               slot := Some resp |}).
Proof.
  intros Hurl Hmarshal Hnew HDo Hstatus H204 Hres Hdata Hfuel.
  unfold call, Post. rewrite Hurl. destruct fuel as [|fuel]; [lia|].
  cbn [Post_loop]. unfold Post_iter. cbn [calls slot attempt now].
  assert (Hpost : doPost h (env_Do env O) urlPath (Some request) (Some zero)
                  = (None, Some resp)).
  { unfold doPost. cbn [request_body]. rewrite Hmarshal, Hnew, HDo.
    unfold StatusOK, StatusMultipleChoices, StatusNoContent.
    destruct ((StatusCode <? 200) || (300 <=? StatusCode)) eqn:E.
    { apply orb_true_iff in E as [E | E]; lia. }
    destruct (StatusCode =? 204) eqn:E'; [lia|].
    now rewrite Hres, Hdata. }
  rewrite Hpost. reflexivity.
Qed.

End HttpApi.

(** ** Builder methods *)

Section BuilderMethods.
Import Segments Builder.

Lemma method_marshalled segmentType data sb :
  method segmentType (data, None) sb =
    Some (Append {| seg_Type := segmentType; seg_Data := data |} None sb).
Proof. reflexivity. Qed.

Lemma method_failed segmentType data err sb :
  method segmentType (data, Some err) sb = None.
Proof. reflexivity. Qed.

Lemma methods_all_marshalled calls sb :
  Forall (fun c => snd (snd c) = None) calls ->
  methods calls sb =
    Some (AppendAll (map (fun c => (segment_of c, None)) calls) sb).
Proof.
  revert sb. induction calls as [|[t [data err]] calls IH]; intros sb Hall.
  - reflexivity.
  - inversion Hall as [|? ? Herr Hrest]; subst. cbn in Herr. subst err.
    cbn [methods fst snd]. rewrite method_marshalled.
    rewrite (IH _ Hrest). reflexivity.
Qed.

Lemma methods_Some_all_marshalled calls sb sb' :
  methods calls sb = Some sb' ->
  Forall (fun c => snd (snd c) = None) calls.
Proof.
  revert sb. induction calls as [|[t [data [err|]]] calls IH]; intros sb.
  - constructor.
  - cbn [methods fst snd]. rewrite method_failed. discriminate.
  - cbn [methods fst snd]. rewrite method_marshalled. intros Hrest.
    constructor; [reflexivity | now apply (IH _ Hrest)].
Qed.

(** Through its methods ([Text], [Mention], ...) a builder never stores
    an error.  A chain of methods whose elements all marshal is the
    chain of [Append] calls with their segments and nil errors; a method
    whose element fails to marshal panics on the nil segment, whatever
    the builder holds; so [Build] after a chain of methods on a new
    builder that did not panic returns every segment, in call order,
    with a nil error. *)
Theorem builder_methods_append_or_panic
    (calls : list (string * (bytes * option error))) (sb : SegmentBuilder) :
  (Forall (fun c => snd (snd c) = None) calls ->
   methods calls sb =
     Some (AppendAll (map (fun c => (segment_of c, None)) calls) sb)) /\
  (forall segmentType data err,
     method segmentType (data, Some err) sb = None) /\
  (forall sb',
     methods calls NewSegmentBuilder = Some sb' ->
     Build sb' = (Some (map segment_of calls), None)).
Proof.
  split; [apply methods_all_marshalled|].
  split; [reflexivity|].
  intros sb' Hrun.
  pose proof (methods_Some_all_marshalled _ _ _ Hrun) as Hall.
  rewrite (methods_all_marshalled _ _ Hall) in Hrun. injection Hrun as <-.
  rewrite AppendAll_no_error; [|reflexivity|].
  - cbn. now rewrite map_map.
  - apply Forall_forall. intros c Hin. apply list_elem_of_In in Hin.
    apply in_map_iff in Hin as (c' & <- & _). reflexivity.
Qed.

(** [Append] only ever adds at the end: after any chain of calls, with
    or without errors, the segments held before are still there, in
    place, as a prefix; at most one segment was added per call; and an
    error that was stored is never replaced or cleared. *)
Theorem AppendAll_extends (calls : list (Segment * option error))
    (sb : SegmentBuilder) :
  segments sb `prefix_of` segments (AppendAll calls sb) /\
  length (segments (AppendAll calls sb)) <= length (segments sb) + length calls /\
  (forall e, sb_error sb = Some e -> sb_error (AppendAll calls sb) = Some e).
Proof.
  split; [|split].
  - revert sb. induction calls as [|[s e] calls IH]; intros sb.
    + reflexivity.
    + change (AppendAll ((s, e) :: calls) sb)
        with (AppendAll calls (Append s e sb)).
      etransitivity; [|apply IH].
      unfold Append. destruct (sb_error sb); [reflexivity|].
      destruct e; cbn; [reflexivity | now apply prefix_app_r].
  - revert sb. induction calls as [|[s e] calls IH]; intros sb.
    + cbn. lia.
    + change (AppendAll ((s, e) :: calls) sb)
        with (AppendAll calls (Append s e sb)).
      specialize (IH (Append s e sb)).
      assert (length (segments (Append s e sb)) <= S (length (segments sb))).
      { unfold Append. destruct (sb_error sb); [lia|].
        destruct e; cbn; [lia | rewrite length_app; cbn; lia]. }
      cbn [length]. lia.
  - intros e He. now rewrite (AppendAll_sticky calls sb e He).
Qed.

End BuilderMethods.

(** ** The logger *)

Section LoggerNames.
Import TinyLogger.
Local Open Scope Z_scope.

Lemma known_level l :
  0 <= l <= 5 -> l = 0 \/ l = 1 \/ l = 2 \/ l = 3 \/ l = 4 \/ l = 5.
Proof. lia. Qed.

(** The names of the log levels: the six levels have six different
    names, a value outside them prints as UNKNOWN and only such a value
    does, and every logging method logs under one of the six levels, the
    formatted variant under the same level as the plain one. *)
Theorem logLevel_String_names :
  (forall l l', 0 <= l <= 5 -> 0 <= l' <= 5 ->
     String_ l = String_ l' -> l = l') /\
  (forall l, String_ l = "UNKNOWN" <-> l < 0 \/ 5 < l) /\
  (forall m, 0 <= level_of m <= 5) /\
  level_of Tracef = level_of Trace /\ level_of Debugf = level_of Debug /\
  level_of Infof = level_of Info /\ level_of Warnf = level_of Warn /\
  level_of Errorf_ = level_of Error_ /\ level_of Fatalf = level_of Fatal.
Proof.
  split.
  { intros l l' Hl Hl'.
    destruct (known_level l Hl) as [-> | [-> | [-> | [-> | [-> | ->]]]]];
      destruct (known_level l' Hl') as [-> | [-> | [-> | [-> | [-> | ->]]]]];
      cbn; intros Heq; try reflexivity; discriminate Heq. }
  split.
  { intros l. split.
    - intros Hname.
      destruct (Z_lt_dec l 0) as [|Hge]; [now left|].
      destruct (Z_lt_dec 5 l) as [|Hle]; [now right|].
      exfalso.
      destruct (known_level l ltac:(lia)) as [-> | [-> | [-> | [-> | [-> | ->]]]]];
        discriminate Hname.
    - intros Hout. unfold String_, logLevelTrace, logLevelDebug, logLevelInfo,
        logLevelWarn, logLevelError, logLevelFatal.
      repeat (match goal with |- context [?a =? ?b] =>
                destruct (Z.eqb_spec a b); [lia|] end).
      reflexivity. }
  split.
  { intros []; cbv [level_of logLevelTrace logLevelDebug logLevelInfo
                    logLevelWarn logLevelError logLevelFatal]; lia. }
  repeat split.
Qed.

End LoggerNames.

(** ** The further properties on concrete inputs *)

Section MoreWsExamples.
Import Ws Lifecycle Sample.

Lemma reachable_fresh_source : reachable fresh_source.
Proof.
  apply reachable_new. intros c Hc. exfalso. revert Hc.
  apply not_elem_of_empty.
Qed.

Lemma reachable_opened_once : reachable opened_once.
Proof. apply (reachable_Open _ fresh_source reachable_fresh_source). Qed.

Lemma Close_opened_once :
  Close (fun _ => None) opened_once = Ok None closed_once.
Proof. reflexivity. Qed.

Lemma Close_never_panics_witness :
  exists res wd', Close (fun _ => Some io_EOF) opened_once = Ok res wd'.
Proof.
  apply (Close_never_panics opened_once (fun _ => Some io_EOF)
           reachable_opened_once).
Defined.

Lemma Close_twice_witness :
  Close (fun _ => Some io_EOF) closed_once = Ok None closed_once.
Proof.
  apply (Close_twice opened_once closed_once (fun _ => None)
           (fun _ => Some io_EOF) Close_opened_once).
Defined.

Lemma Open_error_changes_nothing_witness :
  Open (fun _ _ => inl (lib_error "connection refused")) fresh_source =
    ((None, Some (lib_error "connection refused")), fresh_source) /\
  (@None chan = None /\ fresh_source = fresh_source).
Proof.
  split; [reflexivity|].
  apply (Open_error_changes_nothing
           (fun _ _ => inl (lib_error "connection refused"))
           fresh_source fresh_source None (lib_error "connection refused")).
  reflexivity.
Defined.

Lemma Close_error_keeps_connection_witness :
  Close (fun _ => Some io_EOF) opened_once = Ok (Some io_EOF) opened_once /\
  Open (fun _ _ => inr 8%nat) opened_once =
    ((None, Some ErrAlreadyConnected), opened_once).
Proof.
  apply (Close_error_keeps_connection opened_once 7%nat
           (fun _ => Some io_EOF) io_EOF (fun _ _ => inr 8%nat));
    reflexivity.
Defined.

Lemma reopen_after_Close_witness :
  exists ec1 cc1 wd1 wd2 ec2 cc2 wd3,
    Open (fun _ _ => inr 7%nat) fresh_source = ((Some ec1, None), wd1) /\
    Close (fun _ => None) wd1 = Ok None wd2 /\
    Open (fun _ _ => inr 8%nat) wd2 = ((Some ec2, None), wd3) /\
    wsConn (source wd3) = Some 8%nat /\
    eventChan (source wd3) = Some ec2 /\
    closeChan (source wd3) = Some cc2 /\
    ec2 <> ec1 /\ ec2 <> cc1 /\ cc2 <> ec1 /\ cc2 <> cc1 /\
    (ec1 ∈ closed (chans wd3)) /\ (cc1 ∈ closed (chans wd3)) /\
    (ec2 ∉ closed (chans wd3)) /\ (cc2 ∉ closed (chans wd3)) /\
    receivers wd3 =
      receivers fresh_source ++
      [{| rc_wsConn := 7%nat; rc_eventChan := ec1; rc_closeChan := cc1 |};
       {| rc_wsConn := 8%nat; rc_eventChan := ec2; rc_closeChan := cc2 |}].
Proof.
  apply (reopen_after_Close fresh_source 7%nat 8%nat
           (fun _ _ => inr 7%nat) (fun _ _ => inr 8%nat) (fun _ => None)
           reachable_fresh_source); reflexivity.
Defined.

Lemma Wait_after_Close_witness : Wait closed_once = Proceeds.
Proof.
  apply (Wait_after_Close opened_once closed_once 7%nat (fun _ => None));
    reflexivity.
Defined.

Lemma receive_exits_silently_when_superseded_witness :
  receive (fun _ => None) receiver_7 [Close_elsewhere; ReadError io_EOF]
    opened_once = ([], Exit closed_once).
Proof.
  apply (receive_exits_silently_when_superseded opened_once closed_once
           receiver_7 (fun _ => None) io_EOF); reflexivity.
Defined.

Lemma receive_read_error_closes_witness :
  exists res wd',
    Close (fun _ => None) opened_once = Ok res wd' /\
    receive_turn (fun _ => None) receiver_7 (ReadError io_EOF) opened_once =
      (Logf "ERROR" "Error when reading message: %v" ::
       log_if res "Failed to close websocket connection: %v",
       Exit wd') /\
    ((fun _ : Conn => @None error) (rc_wsConn receiver_7) = None ->
     res = None /\ wsConn (source wd') = None /\ Wait wd' = Proceeds).
Proof.
  apply (receive_read_error_closes opened_once receiver_7 (fun _ => None)
           io_EOF reachable_opened_once).
  reflexivity.
Defined.

Lemma receive_rejected_binary_frame_crashes_witness :
  @receive_turn zlib_decoders (fun _ => None) receiver_7
    (Message BinaryMessage (String.list_byte_of_string "not zlib"))
    opened_once =
    ([Logf "ERROR" "Failed to decompress message: %v"],
     Crash "nil pointer dereference" opened_once).
Proof.
  apply (@receive_rejected_binary_frame_crashes zlib_decoders opened_once
           receiver_7 (fun _ => None)
           (String.list_byte_of_string "not zlib")
           (lib_error "zlib: invalid header")).
  reflexivity.
Defined.

Lemma receive_binary_as_text_witness :
  @receive_turn zlib_decoders (fun _ => None) receiver_7
    (Message BinaryMessage (String.list_byte_of_string "x{}")) opened_once =
  @receive_turn zlib_decoders (fun _ => None) receiver_7
    (Message TextMessage (String.list_byte_of_string "{}")) opened_once.
Proof.
  apply (@receive_binary_as_text zlib_decoders opened_once receiver_7
           (fun _ => None) (String.list_byte_of_string "x{}")
           (String.list_byte_of_string "{}")); reflexivity.
Defined.

Lemma not_in_no_chans (c : chan) : c ∉ closed (chans opened_once).
Proof. apply not_elem_of_empty. Qed.

Lemma receive_keeps_frame_order_witness :
  let frames := [String.list_byte_of_string "{}";
                 String.list_byte_of_string "not json";
                 String.list_byte_of_string "{}"] in
  snd (receive (fun _ => None) receiver_7 (map (Message TextMessage) frames)
         opened_once) = Next opened_once /\
  sent (fst (receive (fun _ => None) receiver_7
               (map (Message TextMessage) frames) opened_once)) =
    map (fun message => fst (json_Unmarshal_RawEvent message RawEvent_zero))
        frames.
Proof.
  apply (receive_keeps_frame_order opened_once receiver_7 (fun _ => None));
    apply not_in_no_chans.
Defined.

Lemma receive_send_after_Close_panics_witness :
  exists effs,
    receive_turn (fun _ => None) receiver_7
      (Message TextMessage (String.list_byte_of_string "{}")) closed_once =
      (effs, Crash "send on closed channel" closed_once) /\
    sent effs = [].
Proof.
  apply (receive_send_after_Close_panics opened_once closed_once receiver_7
           (fun _ => None) 7%nat (String.list_byte_of_string "{}"));
    reflexivity.
Defined.

End MoreWsExamples.

Section MoreDispatchExamples.
Import Dispatch Sample.

Lemma handleEvent_skips_and_goes_on_witness :
  exists line,
    (line = Logf "WARN" "Unknown event type: %s" \/
     line = Logf "TRACE" "No handler registered for event: %s") /\
    handleEvent_loop quiet [a_nudge; a_message "{}"] matched =
      (line :: fst (handleEvent_loop quiet [a_message "{}"] matched),
       snd (handleEvent_loop quiet [a_message "{}"] matched)).
Proof.
  apply (handleEvent_skips_and_goes_on quiet matched a_nudge
           [a_message "{}"]).
  left. reflexivity.
Defined.

Lemma handleEvent_calls_only_matching_handlers_witness :
  In (on_message "second")
     [on_message "first"; on_offline "other"; on_message "second"] /\
  a_message "{}" = a_message "{}" /\
  0%nat = length (heap matched) /\
  exists eventRegistry,
    eventRegistries (bot matched) !! raw_Type (a_message "{}")
      = Some eventRegistry /\
    handler_Type (on_message "second") = Event_Type eventRegistry.
Proof.
  apply (handleEvent_calls_only_matching_handlers quiet matched
           (a_message "{}") (a_message "{}")
           [on_message "first"; on_offline "other"; on_message "second"]
           (on_message "second") 0%nat).
  - reflexivity.
  - right. left. reflexivity.
Defined.

Lemma Handle_commutes_witness :
  let b := NewBot (Event := string * bytes) in
  Handle (on_message "first") (Handle (on_offline "other") b) =
    Handle (on_offline "other") (Handle (on_message "first") b) /\
  SetEventRegistry "bot_offline" ("bot_offline", [])
      (Handle (on_message "first") b) =
    Handle (on_message "first")
      (SetEventRegistry "bot_offline" ("bot_offline", []) b).
Proof.
  apply (Handle_commutes (NewBot (Event := string * bytes))
           (on_message "first") (on_offline "other")
           "bot_offline" ("bot_offline", [])).
  discriminate.
Defined.

End MoreDispatchExamples.

Section MoreHttpExamples.
Import Http Api Sample.
Local Open Scope Z_scope.

Lemma retry_delay_bounds_witness :
  let h := NewHttpClient "http://gateway" "" in
  800 * Millisecond <= maxRetryDelay h /\
  (0 <= baseRetryDelay h -> 0 <= 0 ->
   baseRetryDelay h * 2 ^ 3 + 0 <= MaxInt64 ->
   Z.min (baseRetryDelay h) (maxRetryDelay h) <= 800 * Millisecond /\
   forall earlier delay',
     0 <= earlier <= 3 ->
     retry_delay h earlier 0 = Some delay' ->
     delay' <= 800 * Millisecond).
Proof.
  apply (retry_delay_bounds (NewHttpClient "http://gateway" "") 3 0
           (800 * Millisecond)).
  reflexivity.
Defined.




Lemma Post_already_cancelled_witness :
  Post 1 (NewHttpClient "http://gateway" "") refusing
    {| cancel_at := Some 0 |} 0 "get_login_info" None None =
    Some (Return (Some (Errorf "context canceled"))
            {| attempt := 0; calls := 1; now := 0 + Z.max 0 1000000;
               slot := None |}).
Proof.
  apply (Post_already_cancelled (NewHttpClient "http://gateway" "") refusing
           {| cancel_at := Some 0 |} 0 "get_login_info"
           "http://gateway/get_login_info" None None None
           (Errorf_w "request failed" (lib_error "connection refused"))
           0 (100 * Millisecond) 0 1).
  - reflexivity.
  - reflexivity.
  - lia.
  - reflexivity.
  - cbn. lia.
  - reflexivity.
  - reflexivity.
  - reflexivity.
  - lia.
Defined.

Lemma doPost_local_failure_sends_nothing_witness :
  let h := NewHttpClient ":gateway" "" in
  let Do := fun _ : Request => DoError (lib_error "connection refused") in
  let Do' := fun _ : Request =>
               DoResponse 200 (String.list_byte_of_string "{}") None in
  @doPost bytes bytes picky_codec h Do ":gateway/get_login_info" None (Some [])
    = @doPost bytes bytes picky_codec h Do' ":gateway/get_login_info" None
        (Some []) /\
  exists err,
    @doPost bytes bytes picky_codec h Do ":gateway/get_login_info" None
      (Some []) = (Some err, Some []).
Proof.
  apply (@doPost_local_failure_sends_nothing bytes bytes picky_codec).
  right. discriminate.
Defined.

Lemma call_returns_response_or_error_witness :
  Post 1 (NewHttpClient "http://gateway" "") answering never_cancelled 0
    "get_login_info" (Some []) (Some []) =
    Some (Return None
            {| attempt := 0; calls := 1; now := 1000000;
               slot := Some (String.list_byte_of_string "{}") |}) /\
  (is_Some (Some (String.list_byte_of_string "{}")) <-> @None error = None).
Proof.
  apply (call_returns_response_or_error (NewHttpClient "http://gateway" "")
           answering never_cancelled 0 "get_login_info" [] [] 1).
  reflexivity.
Defined.

Lemma call_answered_at_first_attempt_witness :
  call 1 (NewHttpClient "http://gateway" "") answering never_cancelled 0
    "get_login_info" [] [] =
    Some (Ok (Some (String.list_byte_of_string "{}"), None)
            {| attempt := 0; calls := 1;
               now := 0 + Z.max 0 (env_elapsed answering O);
               slot := Some (String.list_byte_of_string "{}") |}).
Proof.
  apply (call_answered_at_first_attempt (NewHttpClient "http://gateway" "")
           answering never_cancelled 0 "get_login_info"
           "http://gateway/get_login_info" [] []
           (String.list_byte_of_string "{}") 1 []
           (String.list_byte_of_string "{}") 200
           {| Status := "ok"; Code := 0;
              Data := String.list_byte_of_string "{}" |});
    try reflexivity; try lia.
Defined.

End MoreHttpExamples.
